(** * Relay configuration: normalisation, selection, persistence, routing

    A shallow embedding of the relay-configuration logic of the client:
    - [normalizeRelayUrl] and [upsertRelay] of [RelaySelector.tsx];
    - the [deserialize] callback of [AppProvider] with its two zod schemas;
    - the routing list kept by [NostrProvider].

    JavaScript strings are sequences of UTF-16 code units, so a string is
    a list of code units here; [===] on strings is equality of the
    sequences. *)

From Stdlib Require Import List Bool Arith NArith ZArith Lia.
From Stdlib Require Import Ascii.
From Stdlib Require String DecimalString.
Import ListNotations String.StringSyntax.
Delimit Scope string_scope with string.

(* ================================================================== *)
(** ** Strings *)

Module JsString.

Definition char16 := N.
Definition jsstring := list char16.

(** A literal written with ASCII characters only. *)
Definition lit (s : String.string) : jsstring :=
  map N_of_ascii (String.list_ascii_of_string s).
Arguments lit s%_string.

(** [a === b] *)
Fixpoint eqb (a b : jsstring) : bool :=
  match a, b with
  | [], [] => true
  | x :: a', y :: b' => (x =? y)%N && eqb a' b'
  | _, _ => false
  end.

(** [!s] on a string: true exactly for the empty string. *)
Definition is_empty (s : jsstring) : bool :=
  match s with [] => true | _ :: _ => false end.

(** ECMAScript WhiteSpace and LineTerminator code points, the set that
  [String.prototype.trim] strips: TAB, LF, VT, FF, CR, SP, NBSP,
  U+1680, U+2000..U+200A, LS, PS, U+202F, U+205F, U+3000, ZWNBSP. *)
Definition isWhiteSpace (c : char16) : bool :=
  ((9 <=? c) && (c <=? 13) || (c =? 32) || (c =? 160) || (c =? 5760)
   || (8192 <=? c) && (c <=? 8202) || (c =? 8232) || (c =? 8233)
   || (c =? 8239) || (c =? 8287) || (c =? 12288) || (c =? 65279))%N.

Fixpoint trimStart (s : jsstring) : jsstring :=
  match s with
  | [] => []
  | c :: s' => if isWhiteSpace c then trimStart s' else s
  end.

Definition trimEnd (s : jsstring) : jsstring :=
  rev (trimStart (rev s)).

Definition trim (s : jsstring) : jsstring :=
  trimEnd (trimStart s).

Fixpoint startsWith (p s : jsstring) : bool :=
  match p, s with
  | [], _ => true
  | _ :: _, [] => false
  | a :: p', b :: s' => (a =? b)%N && startsWith p' s'
  end.

(** [s.includes(p)]: [p] occurs in [s] as a contiguous run. *)
Fixpoint includes (p s : jsstring) : bool :=
  startsWith p s ||
  match s with
  | [] => false
  | _ :: s' => includes p s'
  end.

(** A string is clean at its start when it does not begin with white
  space. *)
Definition clean_start (s : jsstring) : bool :=
  match s with
  | [] => true
  | c :: _ => negb (isWhiteSpace c)
  end.

End JsString.
Import JsString.

(* ================================================================== *)
(** ** Data model ([AppContext.ts]) *)

Inductive Theme := dark | light | system.

Record RelayConfigItem := mkRelay {
  url : jsstring;
  enabled : bool
}.

Record AppConfig := mkConfig {
  theme : Theme;
  relays : list RelayConfigItem
}.

(** The string a theme is stored as. *)
Definition theme_name (t : Theme) : jsstring :=
  match t with
  | dark => lit "dark"
  | light => lit "light"
  | system => lit "system"
  end.

(** [{ ...r, enabled: b }] *)
Definition with_enabled (r : RelayConfigItem) (b : bool) : RelayConfigItem :=
  {| url := url r; enabled := b |}.

(** [{ ...current, relays: rs }] *)
Definition with_relays (c : AppConfig) (rs : list RelayConfigItem) : AppConfig :=
  {| theme := theme c; relays := rs |}.

(** [relays.some((r) => r.enabled)] *)
Definition hasEnabled (c : AppConfig) : bool := existsb enabled (relays c).

(** The data-model invariant: a relay list that is not empty and holds an
    enabled entry. *)
Definition wellFormed (c : AppConfig) : Prop :=
  relays c <> [] /\ exists r, In r (relays c) /\ enabled r = true.

(* ================================================================== *)
(** ** Relay selector ([RelaySelector.tsx]) *)

Module RelaySelector.

Definition wss : jsstring := lit "wss://".
Definition scheme_sep : jsstring := lit "://".

Definition normalizeRelayUrl (u : jsstring) : jsstring :=
  let trimmed := trim u in
  if is_empty trimmed then trimmed
  else if includes scheme_sep trimmed then trimmed
  else wss ++ trimmed.

(** The component reads and replaces the configuration through
  [updateConfig]; a handler is a state transformer on it. *)
Definition Handler (A : Type) := AppConfig -> A * AppConfig.

Definition ret {A} (a : A) : Handler A := fun s => (a, s).

(** [updateConfig(updater)] applies the updater to the current
  configuration and stores the result. *)
Definition updateConfig (updater : AppConfig -> AppConfig) : Handler unit :=
  fun s => (tt, updater s).

Definition exec {A} (h : Handler A) (s : AppConfig) : AppConfig := snd (h s).

Definition url_is (n : jsstring) (r : RelayConfigItem) : bool :=
  JsString.eqb (url r) n.

(** The updater that [upsertRelay] hands to [updateConfig]. *)
Definition upsertUpdater (u : jsstring) (en : bool) (current : AppConfig)
  : AppConfig :=
  let normalized := normalizeRelayUrl u in
  let existing := find (url_is normalized) (relays current) in
  let enabledCount := length (filter enabled (relays current)) in
  match existing with
  | Some e =>
      if enabled e && negb en && (enabledCount <=? 1)
      then current
      else with_relays current
             (map (fun r => if url_is normalized r then with_enabled r en else r)
                  (relays current))
  | None =>
      with_relays current
        (relays current ++ [ {| url := normalized; enabled := true |} ])
  end.

Definition upsertRelay (rawUrl : jsstring) (en : bool) : Handler unit :=
  let u := normalizeRelayUrl rawUrl in
  if is_empty u then ret tt
  else updateConfig (upsertUpdater u en).

End RelaySelector.
Import RelaySelector.

(* ================================================================== *)
(** ** Configuration store ([AppProvider]) *)

Module AppProvider.

(** A JavaScript statement either completes with a value or throws;
  [catch] without a binding drops the thrown value, so it is not
  carried. *)
Inductive completion (A : Type) : Type :=
  | Normal (a : A)
  | Throw.
Arguments Normal {A} a.
Arguments Throw {A}.

Definition bind {A B} (m : completion A) (k : A -> completion B)
  : completion B :=
  match m with
  | Normal a => k a
  | Throw => Throw
  end.

(** [try { body } catch { handler }] *)
Definition try_catch {A} (body handler : completion A) : completion A :=
  match body with
  | Normal a => Normal a
  | Throw => handler
  end.

Notation "x <- m ;; k" := (bind m (fun x => k))
  (at level 61, m at next level, right associativity).

(** [array.map((r, i) => f r i)] *)
Fixpoint mapi_from {A B} (f : A -> nat -> B) (i : nat) (l : list A) : list B :=
  match l with
  | [] => []
  | a :: l' => f a i :: mapi_from f (S i) l'
  end.
Definition mapi {A B} (f : A -> nat -> B) (l : list A) : list B :=
  mapi_from f 0 l.

(** All elements must validate, in order. *)
Fixpoint parse_all {A B} (f : A -> option B) (l : list A) : option (list B) :=
  match l with
  | [] => Some []
  | a :: l' =>
      match f a, parse_all f l' with
      | Some b, Some bs => Some (b :: bs)
      | _, _ => None
      end
  end.

Section Store.

(** The carrier of JSON numbers; no schema of this module accepts
    one, so nothing depends on what it is. *)
Variable number : Type.

(** A value produced by [JSON.parse]. An object is its table of own
    properties. *)
#[local] Unset Elimination Schemes.
Inductive json : Type :=
    | JNull
    | JBool (b : bool)
    | JNumber (n : number)
    | JString (s : jsstring)
    | JArray (items : list json)
    | JObject (props : list (jsstring * json)).
#[local] Set Elimination Schemes.

Fixpoint get (k : jsstring) (props : list (jsstring * json)) : option json :=
  match props with
  | [] => None
  | (k', v) :: rest => if JsString.eqb k' k then Some v else get k rest
  end.

(** [new URL(s)] does not throw: the check behind [z.string().url()]. *)
Variable is_url : jsstring -> bool.

(** [JSON.parse]: a value, or a thrown [SyntaxError]. *)
Variable JSON_parse : jsstring -> completion json.

(** [z.enum(['dark', 'light', 'system'])] *)
Definition ThemeSchema (v : json) : option Theme :=
  match v with
  | JString s =>
      if JsString.eqb s (lit "dark") then Some dark
      else if JsString.eqb s (lit "light") then Some light
      else if JsString.eqb s (lit "system") then Some system
      else None
  | _ => None
  end.

(** [z.string().url()] *)
Definition UrlSchema (v : json) : option jsstring :=
  match v with
  | JString s => if is_url s then Some s else None
  | _ => None
  end.

(** [z.boolean()] *)
Definition BooleanSchema (v : json) : option bool :=
  match v with
  | JBool b => Some b
  | _ => None
  end.

(** A key that is absent reads as [undefined], which no schema here
    accepts. *)
Definition field {A} (schema : json -> option A) (k : jsstring)
           (props : list (jsstring * json)) : option A :=
  match get k props with
  | Some v => schema v
  | None => None
  end.

(** [z.object({ url: z.string().url(), enabled: z.boolean() })];
    keys outside the shape are stripped from the result. *)
Definition RelayConfigItemSchema (v : json) : option RelayConfigItem :=
  match v with
  | JObject props =>
      match field UrlSchema (lit "url") props,
            field BooleanSchema (lit "enabled") props with
      | Some u, Some b => Some {| url := u; enabled := b |}
      | _, _ => None
      end
  | _ => None
  end.

(** [z.array(RelayConfigItemSchema).min(1)] *)
Definition RelaysSchema (v : json) : option (list RelayConfigItem) :=
  match v with
  | JArray items =>
      match parse_all RelayConfigItemSchema items with
      | Some rs => if 1 <=? length rs then Some rs else None
      | None => None
      end
  | _ => None
  end.

(** [AppConfigSchema.safeParse]: [Some data] on success. *)
Definition AppConfigSchema (v : json) : option AppConfig :=
  match v with
  | JObject props =>
      match field ThemeSchema (lit "theme") props,
            field RelaysSchema (lit "relays") props with
      | Some t, Some rs => Some {| theme := t; relays := rs |}
      | _, _ => None
      end
  | _ => None
  end.

Record LegacyAppConfig := mkLegacy {
  legacy_theme : Theme;
  relayUrl : jsstring
    }.

(** [LegacyAppConfigSchema.safeParse] *)
Definition LegacyAppConfigSchema (v : json) : option LegacyAppConfig :=
  match v with
  | JObject props =>
      match field ThemeSchema (lit "theme") props,
            field UrlSchema (lit "relayUrl") props with
      | Some t, Some u => Some {| legacy_theme := t; relayUrl := u |}
      | _, _ => None
      end
  | _ => None
  end.

(** The three-way decision taken on a parsed value. *)
Definition decode (defaultConfig : AppConfig) (parsed : json) : AppConfig :=
  match AppConfigSchema parsed with
  | Some data =>
      if existsb enabled (relays data) then data
      else with_relays data
             (mapi (fun r i => with_enabled r (i =? 0)) (relays data))
  | None =>
      match LegacyAppConfigSchema parsed with
      | Some legacy =>
          {| theme := legacy_theme legacy;
             relays := [ {| url := relayUrl legacy; enabled := true |} ] |}
      | None => defaultConfig
      end
  end.

(** The [deserialize] option given to [useLocalStorage]. *)
Definition deserialize (defaultConfig : AppConfig) (value : jsstring)
  : completion AppConfig :=
  try_catch
    (parsed <- JSON_parse value ;;
     Normal (decode defaultConfig parsed))
    (Normal defaultConfig).

End Store.

Arguments JNull {number}.
Arguments JBool {number} b.
Arguments JString {number} s.
Arguments JNumber {number} n.
Arguments JArray {number} items.
Arguments JObject {number} props.
Arguments get {number} k props.
Arguments ThemeSchema {number} v.
Arguments UrlSchema {number} is_url v.
Arguments BooleanSchema {number} v.
Arguments field {number A} schema k props.
Arguments RelayConfigItemSchema {number} is_url v.
Arguments RelaysSchema {number} is_url v.
Arguments AppConfigSchema {number} is_url v.
Arguments LegacyAppConfigSchema {number} is_url v.
Arguments decode {number} is_url defaultConfig parsed.
Arguments deserialize {number} is_url JSON_parse defaultConfig value.

End AppProvider.
Import AppProvider.

(* ================================================================== *)
(** ** Relay pool adapter ([NostrProvider]) *)

Module NostrProvider.

(** [config.relays.filter((r) => r.enabled).map((r) => r.url)] *)
Definition enabledUrls (c : AppConfig) : list jsstring :=
  map url (filter enabled (relays c)).

(** The value [relayUrls] is created with on the first render. *)
Definition relayUrls_initial (c : AppConfig) : list jsstring :=
  enabledUrls c.

(** What the effect assigns to [relayUrls.current] whenever
  [config.relays] changes, and once after the first render. *)
Definition relayUrls_effect (c : AppConfig) : list jsstring :=
  let en := enabledUrls c in
  if 0 <? length en then en
  else map url (firstn 1 (relays c)).

(** The ref as a one-cell state: [FirstRender] creates it, and every
  run of the effect (after the first render, and after each change of
  [config.relays]) overwrites it. *)
Inductive event := FirstRender (c : AppConfig) | Effect (c : AppConfig).

Definition step (current : list jsstring) (e : event) : list jsstring :=
  match e with
  | FirstRender c => relayUrls_initial c
  | Effect c => relayUrls_effect c
  end.

End NostrProvider.
Import NostrProvider.

(* ================================================================== *)
(** ** Fixtures: concrete configurations and payloads *)

Module Fixtures.

Definition relay (u : String.string) (b : bool) : RelayConfigItem :=
    {| url := lit u; enabled := b |}.
Arguments relay u%_string b.

(** [defaultConfig] of [App.tsx]. *)
Definition defaultConfig : AppConfig :=
    {| theme := dark;
       relays := [ relay "wss://nostr-01.yakihonne.com" true;
                   relay "wss://nostr-02.yakihonne.com" true;
                   relay "wss://relay.damus.io" true;
                   relay "wss://relay.angor.io" true;
                   relay "wss://relay.primal.net" true;
                   relay "wss://nos.lol" true ] |}.

(** A stored list that names one relay twice; the schema of the store
    accepts it. *)
Definition twice_on : AppConfig :=
  {| theme := light;
     relays := [ relay "wss://a.example" true; relay "wss://a.example" true ] |}.

Definition twice_off : AppConfig :=
  {| theme := light;
     relays := [ relay "wss://a.example" false; relay "wss://a.example" false;
                 relay "wss://b.example" true ] |}.

(** One enabled relay among two. *)
Definition one_on : AppConfig :=
  {| theme := system;
     relays := [ relay "wss://a.example" false; relay "wss://b.example" true ] |}.

(** A stored URL without the [://] separator; [new URL] accepts
    [wss:relay.example], so the store's schema lets it through. *)
Definition bare_scheme : AppConfig :=
  {| theme := dark; relays := [ relay "wss:relay.example" true ] |}.

(** No relay enabled: what a direct call of [updateConfig] can leave. *)
Definition none_on : AppConfig :=
  {| theme := dark;
     relays := [ relay "wss://a.example" false; relay "wss://b.example" false ] |}.

(** Stored texts. A quotation mark is code unit 34. *)
Definition quoted (s : String.string) : jsstring := [34%N] ++ lit s ++ [34%N].
Arguments quoted s%_string.

(** The legacy shape: theme light, relayUrl wss://old.example. *)
Definition legacy_text : jsstring :=
  lit "{" ++ quoted "theme" ++ lit ":" ++ quoted "light" ++ lit ","
  ++ quoted "relayUrl" ++ lit ":" ++ quoted "wss://old.example" ++ lit "}".

Definition legacy_value : json Z :=
  JObject [ (lit "theme", JString (lit "light"));
            (lit "relayUrl", JString (lit "wss://old.example")) ].

(** The current shape with theme system and two relays, both disabled. *)
Definition all_off_text : jsstring :=
  lit "{" ++ quoted "theme" ++ lit ":" ++ quoted "system" ++ lit ","
  ++ quoted "relays" ++ lit ":[{" ++ quoted "url" ++ lit ":"
  ++ quoted "wss://a.example" ++ lit "," ++ quoted "enabled" ++ lit ":false},{"
  ++ quoted "url" ++ lit ":" ++ quoted "wss://b.example" ++ lit ","
  ++ quoted "enabled" ++ lit ":false}]}".

Definition all_off_value : json Z :=
  JObject
    [ (lit "theme", JString (lit "system"));
      (lit "relays",
       JArray [ JObject [ (lit "url", JString (lit "wss://a.example"));
                          (lit "enabled", JBool false) ];
                JObject [ (lit "url", JString (lit "wss://b.example"));
                          (lit "enabled", JBool false) ] ]) ].

(** [JSON.parse] on the two texts above, on [[1]] and on [null]; every
    other text of the fixtures is not JSON. *)
Definition parse_fixture (value : jsstring) : completion (json Z) :=
  if JsString.eqb value legacy_text then Normal legacy_value
  else if JsString.eqb value all_off_text then Normal all_off_value
  else if JsString.eqb value (lit "[1]") then Normal (JArray [JNumber 1%Z])
  else if JsString.eqb value (lit "null") then Normal JNull
  else Throw.

(** The fixtures' URLs all carry a scheme separator; this stands in for
    [new URL] on them. *)
Definition url_fixture (s : jsstring) : bool := includes (lit "://") s.

End Fixtures.

(* ================================================================== *)
(** ** Insertion-ordered maps ([new Map(entries)]) *)

Module JsMap.

Section Entries.

Variable V : Type.

(** [map.set(k, v)]: a key already present keeps its place and takes the
    new value; a new key goes to the end. *)
Fixpoint set (k : jsstring) (v : V) (m : list (jsstring * V))
  : list (jsstring * V) :=
  match m with
  | [] => [(k, v)]
  | (k', v') :: m' =>
      if JsString.eqb k' k then (k', v) :: m'
      else (k', v') :: set k v m'
  end.

(** The entries set one after the other on a map. *)
Definition fill (acc entries : list (jsstring * V)) : list (jsstring * V) :=
  fold_left (fun m e => set (fst e) (snd e) m) entries acc.

(** [new Map(entries)] sets the entries from left to right. *)
Definition of_entries (entries : list (jsstring * V)) : list (jsstring * V) :=
  fold_left (fun m e => set (fst e) (snd e) m) entries [].

Definition keys (m : list (jsstring * V)) : list jsstring := map fst m.

(** [[...map.values()]] *)
Definition values (m : list (jsstring * V)) : list V := map snd m.

End Entries.

Arguments set {V} k v m.
Arguments fill {V} acc entries.
Arguments of_entries {V} entries.
Arguments keys {V} m.
Arguments values {V} m.

End JsMap.

(* ================================================================== *)
(** ** What the selector shows ([RelaySelector.tsx]) *)

Module SelectorView.

(** [s.replace(/^wss?:\/\//, '')] *)
Definition stripScheme (s : jsstring) : jsstring :=
  if startsWith (lit "wss://") s then skipn 6 s
  else if startsWith (lit "ws://") s then skipn 5 s
  else s.

(** A length written in decimal, as a template literal prints it. *)
Definition decimal (n : nat) : jsstring :=
  lit (DecimalString.NilEmpty.string_of_uint (Nat.to_uint n)).

Definition enabledRelays (c : AppConfig) : list RelayConfigItem :=
  filter enabled (relays c).

Definition getRelayLabel (c : AppConfig) : jsstring :=
  match enabledRelays c with
  | [] => lit "No relays enabled"
  | [r] => stripScheme (url r)
  | rs => decimal (length rs) ++ lit " relays enabled"
  end.

(** An entry a user can pick: a preset [{url, name}], or a configured
    relay shown as [{url: r.url, name: r.url}]. *)
Record RelayOption := mkOption {
  option_url : jsstring;
  option_name : jsstring
}.

(** A rendered [CommandItem]: its [value] and its first line. *)
Record CommandItem := mkItem {
  item_value : jsstring;
  item_label : jsstring
}.

(** The popover's own state beside the configuration. *)
Record SelectorState := mkState {
  config : AppConfig;
  open : bool;
  inputValue : jsstring
}.

Section View.

(** [new URL(s)] does not throw. *)
Variable is_url : jsstring -> bool.

(** [String.prototype.toLowerCase]. *)
Variable toLowerCase : jsstring -> jsstring.

Variable presetRelays : list RelayOption.

Definition isValidRelayInput (value : jsstring) : bool :=
  let trimmed := trim value in
  if is_empty trimmed then false
  else is_url (normalizeRelayUrl trimmed).

(** [!inputValue || text.toLowerCase().includes(inputValue.toLowerCase())] *)
Definition matchesInput (input text : jsstring) : bool :=
  is_empty input || includes (toLowerCase input) (toLowerCase text).

(** The items of the "Enabled" group. *)
Definition enabledItems (c : AppConfig) (input : jsstring) : list CommandItem :=
  map (fun relay =>
         {| item_value := url relay;
            item_label :=
              match find (fun p => JsString.eqb (option_url p) (url relay))
                         presetRelays with
              | Some p => option_name p
              | None => stripScheme (url relay)
              end |})
      (filter (fun r => matchesInput input (url r)) (enabledRelays c)).

(** The options of the "Available" group before filtering: presets, then
    configured relays, one per normalised URL. *)
Definition allOptions (c : AppConfig) : list RelayOption :=
  JsMap.values
    (JsMap.of_entries
       (map (fun p => (normalizeRelayUrl (option_url p), p)) presetRelays
        ++ map (fun r => (normalizeRelayUrl (url r),
                          {| option_url := url r; option_name := url r |}))
               (relays c))).

Definition isAvailable (c : AppConfig) (input : jsstring) (o : RelayOption)
  : bool :=
  let u := normalizeRelayUrl (option_url o) in
  if is_empty u then false
  else if existsb (fun r => JsString.eqb (url r) u) (enabledRelays c) then false
  else if is_empty input then true
  else includes (toLowerCase input) (toLowerCase (option_name o))
       || includes (toLowerCase input) (toLowerCase u).

(** The items of the "Available" group; [None] is a [null] child. *)
Definition availableItems (c : AppConfig) (input : jsstring)
  : list (option CommandItem) :=
  map (fun o =>
         let u := normalizeRelayUrl (option_url o) in
         if is_empty u then None
         else Some {| item_value := u; item_label := option_name o |})
      (filter (isAvailable c input) (allOptions c)).

(** The "Add custom relay" row is rendered for such an input. *)
Definition offersCustomRelay (input : jsstring) : bool :=
  negb (is_empty input) && isValidRelayInput input.

End View.

(** [onSelect] of an "Enabled" item. *)
Definition selectEnabled (currentValue : jsstring) (s : SelectorState)
  : SelectorState :=
  {| config := exec (upsertRelay currentValue false) (config s);
     open := open s;
     inputValue := inputValue s |}.

(** [onSelect] of an "Available" item. *)
Definition selectAvailable (currentValue : jsstring) (s : SelectorState)
  : SelectorState :=
  {| config := exec (upsertRelay currentValue true) (config s);
     open := open s;
     inputValue := inputValue s |}.

Definition handleAddCustomRelay (u : jsstring) (s : SelectorState)
  : SelectorState :=
  {| config := exec (upsertRelay u true) (config s);
     open := false;
     inputValue := [] |}.

(** One call of [upsertRelay]: the URL and the flag asked for. *)
Definition run_upserts (ops : list (jsstring * bool)) (c : AppConfig)
  : AppConfig :=
  fold_left (fun c op => exec (upsertRelay (fst op) (snd op)) c) ops c.

End SelectorView.
Import SelectorView.

(* ================================================================== *)
(** ** Theme applier ([useApplyTheme]) *)

Module ThemeApplier.

(** [classList] is an ordered set of tokens. *)
Definition classList := list jsstring.

(** [classList.remove(t)] *)
Definition remove (t : jsstring) (cl : classList) : classList :=
  filter (fun x => negb (JsString.eqb x t)) cl.

(** [classList.add(t)] *)
Definition add (t : jsstring) (cl : classList) : classList :=
  if existsb (fun x => JsString.eqb x t) cl then cl else cl ++ [t].

(** [matches ? 'dark' : 'light'] *)
Definition systemTheme (prefersDark : bool) : jsstring :=
  if prefersDark then lit "dark" else lit "light".

(** The first effect; [prefersDark] is what
    [matchMedia('(prefers-color-scheme: dark)').matches] reads. *)
Definition applyTheme (prefersDark : bool) (t : Theme) (cl : classList)
  : classList :=
  let cl := remove (lit "dark") (remove (lit "light") cl) in
  match t with
  | system => add (systemTheme prefersDark) cl
  | _ => add (theme_name t) cl
  end.

(** The listener of the second effect. *)
Definition handleChange (matches : bool) (cl : classList) : classList :=
  add (systemTheme matches) (remove (lit "dark") (remove (lit "light") cl)).

(** A change of the host preference: the listener is registered only
    while the theme is [system]. *)
Definition mediaChanged (t : Theme) (matches : bool) (cl : classList)
  : classList :=
  match t with
  | system => handleChange matches cl
  | _ => cl
  end.

(** The mode the document ends up in. *)
Definition resolved (prefersDark : bool) (t : Theme) : jsstring :=
  match t with
  | system => systemTheme prefersDark
  | _ => theme_name t
  end.

End ThemeApplier.

(* ================================================================== *)
(** ** Routers of the pool ([NostrProvider]) *)

Module Routers.

(** [reqRouter(filters)]: a map from each active URL to the filters. *)
Definition reqRouter {F : Type} (current : list jsstring) (filters : F)
  : list (jsstring * F) :=
  JsMap.of_entries (map (fun u => (u, filters)) current).

(** [eventRouter(_event)] *)
Definition eventRouter {E : Type} (current : list jsstring) (_event : E)
  : list jsstring :=
  current.

End Routers.

(* ================================================================== *)
(** ** What is written to storage ([serialize: JSON.stringify]) *)

Module Persisted.

(** The value [JSON.parse] reads back from [JSON.stringify(config)]: the
    object's properties in the order the record lists them. *)
Definition relay_json {number : Type} (r : RelayConfigItem) : json number :=
  JObject [ (lit "url", JString (url r));
            (lit "enabled", JBool (enabled r)) ].

Definition to_json {number : Type} (c : AppConfig) : json number :=
  JObject [ (lit "theme", JString (theme_name (theme c)));
            (lit "relays", JArray (map relay_json (relays c))) ].

End Persisted.

(* ================================================================== *)
(** ** More fixtures *)

Module Samples.

(** [presetRelays] of [App.tsx]. *)
Definition presetRelays : list RelayOption :=
  [ {| option_url := lit "wss://nostr-01.yakihonne.com";
       option_name := lit "Yakihonne 01" |};
    {| option_url := lit "wss://nostr-02.yakihonne.com";
       option_name := lit "Yakihonne 02" |};
    {| option_url := lit "wss://relay.damus.io"; option_name := lit "Damus" |};
    {| option_url := lit "wss://relay.angor.io"; option_name := lit "Angor" |};
    {| option_url := lit "wss://relay.primal.net";
       option_name := lit "Primal" |};
    {| option_url := lit "wss://nos.lol"; option_name := lit "nos.lol" |} ].

(** Lower-casing of the letters A to Z, enough for the fixtures. *)
Definition lower_ascii (s : jsstring) : jsstring :=
  map (fun c => if ((65 <=? c) && (c <=? 90))%N then (c + 32)%N else c) s.

(** Two relays enabled, one not. *)
Definition two_on : AppConfig :=
  {| theme := dark;
     relays := [ Fixtures.relay "wss://relay.damus.io" true;
                 Fixtures.relay "wss://nos.lol" false;
                 Fixtures.relay "wss://b.example" true ] |}.

(** The popover open on [two_on] with nothing typed. *)
Definition browsing : SelectorState :=
  {| config := two_on; open := true; inputValue := [] |}.

(** The popover open on [two_on] with a host name typed. *)
Definition typing : SelectorState :=
  {| config := two_on; open := true; inputValue := lit " my.relay.org" |}.

(** Stored texts of configurations, as [JSON.stringify] writes them. *)
Definition relay_text (u b : String.string) : jsstring :=
  lit "{" ++ Fixtures.quoted "url" ++ lit ":" ++ Fixtures.quoted u ++ lit ","
  ++ Fixtures.quoted "enabled" ++ lit ":" ++ lit b ++ lit "}".
Arguments relay_text u%_string b%_string.

Definition two_on_text : jsstring :=
  lit "{" ++ Fixtures.quoted "theme" ++ lit ":" ++ Fixtures.quoted "dark"
  ++ lit "," ++ Fixtures.quoted "relays" ++ lit ":["
  ++ relay_text "wss://relay.damus.io" "true" ++ lit ","
  ++ relay_text "wss://nos.lol" "false" ++ lit ","
  ++ relay_text "wss://b.example" "true" ++ lit "]}".

(** A configuration holding a string that is no URL. *)
Definition not_a_url : AppConfig :=
  {| theme := light; relays := [ Fixtures.relay "not a url" true ] |}.

Definition not_a_url_text : jsstring :=
  lit "{" ++ Fixtures.quoted "theme" ++ lit ":" ++ Fixtures.quoted "light"
  ++ lit "," ++ Fixtures.quoted "relays" ++ lit ":["
  ++ relay_text "not a url" "true" ++ lit "]}".

(** [JSON.parse] on these texts and on those of [Fixtures]. *)
Definition parse_saved (value : jsstring) : completion (json Z) :=
  if JsString.eqb value two_on_text then Normal (Persisted.to_json two_on)
  else if JsString.eqb value not_a_url_text
       then Normal (Persisted.to_json not_a_url)
  else Fixtures.parse_fixture value.

End Samples.

(* ================================================================== *)
(** ** Strings: trimming and searching *)

Section StringFacts.

Lemma eqb_eq (a b : jsstring) : JsString.eqb a b = true <-> a = b.
  Proof.
    revert b; induction a as [|x a IH]; intros [|y b]; simpl;
      try (split; [discriminate | discriminate]); try tauto.
    rewrite andb_true_iff, N.eqb_eq, IH.
    split; [intros [-> ->]; reflexivity | intros H; inversion H; auto].
  Qed.

Lemma eqb_refl (a : jsstring) : JsString.eqb a a = true.
  Proof. apply eqb_eq; reflexivity. Qed.

Lemma eqb_neq (a b : jsstring) : JsString.eqb a b = false <-> a <> b.
  Proof.
    rewrite <- eqb_eq. destruct (JsString.eqb a b); split; congruence.
  Qed.

Lemma trimStart_clean (s : jsstring) : clean_start (trimStart s) = true.
  Proof.
    induction s as [|c s IH]; simpl; auto.
    destruct (isWhiteSpace c) eqn:E; auto. simpl. now rewrite E.
  Qed.

Lemma trimStart_fixed (s : jsstring) :
    clean_start s = true -> trimStart s = s.
  Proof.
    destruct s as [|c s]; simpl; auto.
    destruct (isWhiteSpace c); simpl; congruence.
  Qed.

Lemma trimStart_idem (s : jsstring) : trimStart (trimStart s) = trimStart s.
  Proof. apply trimStart_fixed, trimStart_clean. Qed.

Lemma trimStart_suffix (s : jsstring) : exists w, s = w ++ trimStart s.
  Proof.
    induction s as [|c s [w Hw]]; simpl.
    - now exists [].
    - destruct (isWhiteSpace c).
      + exists (c :: w). simpl. now f_equal.
      + now exists [].
  Qed.

Lemma trimEnd_prefix (s : jsstring) : exists w, s = trimEnd s ++ w.
  Proof.
    unfold trimEnd. destruct (trimStart_suffix (rev s)) as [w Hw].
    exists (rev w). rewrite <- rev_app_distr, <- Hw. now rewrite rev_involutive.
  Qed.

Lemma trimEnd_idem (s : jsstring) : trimEnd (trimEnd s) = trimEnd s.
  Proof.
    unfold trimEnd. now rewrite rev_involutive, trimStart_idem.
  Qed.

Lemma trimEnd_keeps_clean_start (s : jsstring) :
    clean_start s = true -> clean_start (trimEnd s) = true.
  Proof.
    intros H. destruct (trimEnd_prefix s) as [w Hw].
    destruct (trimEnd s) as [|c t]; auto.
    rewrite Hw in H. exact H.
  Qed.

Lemma trim_clean_start (s : jsstring) : clean_start (trim s) = true.
  Proof. apply trimEnd_keeps_clean_start, trimStart_clean. Qed.

Lemma trim_clean_end (s : jsstring) : clean_start (rev (trim s)) = true.
  Proof.
    unfold trim, trimEnd. rewrite rev_involutive. apply trimStart_clean.
  Qed.

Lemma trim_idem (s : jsstring) : trim (trim s) = trim s.
  Proof.
    unfold trim at 1. rewrite (trimStart_fixed _ (trim_clean_start s)).
    unfold trim. apply trimEnd_idem.
  Qed.

(** Text put in front of a trimmed, non-empty string does not reopen
    its end. *)
Lemma trimEnd_app (p t : jsstring) :
    t <> [] -> clean_start (rev t) = true -> trimEnd (p ++ t) = p ++ t.
  Proof.
    intros Hne Hc. unfold trimEnd. rewrite rev_app_distr.
    rewrite trimStart_fixed.
    - now rewrite <- rev_app_distr, rev_involutive.
    - destruct (rev t) as [|c r] eqn:E.
      + apply (f_equal (@rev _)) in E. rewrite rev_involutive in E.
        now subst.
      + exact Hc.
  Qed.

Lemma includes_app_l (p a b : jsstring) :
    includes p a = true -> includes p (a ++ b) = true.
  Proof.
    assert (SW : forall q x y, startsWith q x = true ->
                               startsWith q (x ++ y) = true).
    { induction q as [|c q IH]; intros [|d x] y; simpl; auto; try discriminate.
      rewrite !andb_true_iff. intros [? ?]; split; auto. }
    induction a as [|c a IH]; simpl.
    - rewrite orb_false_r. destruct p; simpl; [|discriminate].
      intros _. destruct b; reflexivity.
    - rewrite !orb_true_iff. intros [H|H].
      + left. apply (SW p (c :: a) b H).
      + right. auto.
  Qed.

End StringFacts.

(* ================================================================== *)
(** ** URL normalisation *)

Section Normalisation.

Lemma normalize_trimmed (x : jsstring) :
    trim (normalizeRelayUrl x) = normalizeRelayUrl x.
  Proof.
    unfold normalizeRelayUrl.
    destruct (trim x) as [|c t] eqn:E; [reflexivity|].
    cbn [is_empty].
    assert (Ht : trim (c :: t) = c :: t) by (rewrite <- E; apply trim_idem).
    destruct (includes scheme_sep (c :: t)); [exact Ht|].
    unfold trim. rewrite trimStart_fixed by reflexivity.
    apply trimEnd_app; [discriminate|].
    rewrite <- E. apply trim_clean_end.
  Qed.

Lemma normalize_idem (x : jsstring) :
    normalizeRelayUrl (normalizeRelayUrl x) = normalizeRelayUrl x.
  Proof.
    unfold normalizeRelayUrl at 1. rewrite normalize_trimmed.
    unfold normalizeRelayUrl.
    destruct (trim x) as [|c t] eqn:E; [reflexivity|].
    cbn [is_empty].
    destruct (includes scheme_sep (c :: t)) eqn:I.
    - cbn [is_empty]. now rewrite I.
    - change (is_empty (wss ++ c :: t)) with false. cbv iota.
      now rewrite (includes_app_l scheme_sep wss (c :: t) eq_refl).
  Qed.

Lemma is_empty_true (s : jsstring) : is_empty s = true <-> s = [].
  Proof. destruct s; simpl; split; congruence. Qed.

Lemma is_empty_false (s : jsstring) : is_empty s = false <-> s <> [].
  Proof. destruct s; simpl; split; congruence. Qed.

End Normalisation.

(* ================================================================== *)
(** ** Lists of relays *)

Section RelayLists.

Lemma url_is_true (n : jsstring) (r : RelayConfigItem) :
  url_is n r = true <-> url r = n.
Proof. apply eqb_eq. Qed.

Lemma url_is_false (n : jsstring) (r : RelayConfigItem) :
  url_is n r = false <-> url r <> n.
Proof. apply eqb_neq. Qed.

Lemma find_url_some (n : jsstring) (l : list RelayConfigItem) e :
  find (url_is n) l = Some e -> In e l /\ url e = n.
Proof.
  intros H. apply find_some in H. now rewrite url_is_true in H.
Qed.

Lemma find_url_none (n : jsstring) (l : list RelayConfigItem) :
  find (url_is n) l = None <-> (forall r, In r l -> url r <> n).
Proof.
  split.
  - intros H r Hr. apply url_is_false. exact (find_none _ _ H r Hr).
  - intros H. destruct (find (url_is n) l) as [e|] eqn:E; auto.
    apply find_url_some in E. destruct E as [Hin Hu]. now apply H in Hin.
Qed.

(** With pairwise distinct URLs, an entry is determined by its URL. *)
Lemma url_key (l : list RelayConfigItem) (a b : RelayConfigItem) :
  NoDup (map url l) -> In a l -> In b l -> url a = url b -> a = b.
Proof.
  induction l as [|x l IH]; simpl; [tauto|].
  intros ND Ha Hb E. inversion ND as [|? ? Hx ND']; subst.
  destruct Ha as [->|Ha], Hb as [->|Hb]; auto.
  - exfalso. apply Hx. rewrite E. now apply in_map.
  - exfalso. apply Hx. rewrite <- E. now apply in_map.
Qed.

Lemma existsb_enabled (l : list RelayConfigItem) :
  existsb enabled l = true <-> exists r, In r l /\ enabled r = true.
Proof. apply existsb_exists. Qed.

Lemma filter_enabled_nil (l : list RelayConfigItem) :
  filter enabled l = [] <-> existsb enabled l = false.
Proof.
  induction l as [|r l IH]; simpl; [tauto|].
  destruct (enabled r); simpl; [split; discriminate | exact IH].
Qed.

(** Two enabled entries with distinct URLs: one of them is not at [n]. *)
Lemma other_enabled (n : jsstring) (l : list RelayConfigItem) :
  NoDup (map url l) -> 2 <= length (filter enabled l) ->
  exists r, In r l /\ enabled r = true /\ url r <> n.
Proof.
  induction l as [|x l IH]; simpl; [lia|].
  intros ND Hlen. inversion ND as [|? ? Hx ND']; subst.
  destruct (enabled x) eqn:Ex.
  - destruct (url_is n x) eqn:Ux.
    + simpl in Hlen.
      destruct (filter enabled l) as [|y ys] eqn:F; [simpl in Hlen; lia|].
      assert (Hy : In y (filter enabled l)) by (rewrite F; now left).
      apply filter_In in Hy. destruct Hy as [Hy Ey].
      exists y. repeat split; auto.
      apply url_is_true in Ux. intros Huy. apply Hx.
      rewrite Ux, <- Huy. now apply in_map.
    + apply url_is_false in Ux. exists x. auto.
  - destruct (IH ND' Hlen) as (r & Hr & Er & Ur). exists r. auto.
Qed.

Lemma nth_error_toggle (n : jsstring) (en : bool) (l : list RelayConfigItem) i :
  nth_error (map (fun r => if url_is n r then with_enabled r en else r) l) i
  = option_map (fun r => if url_is n r then with_enabled r en else r)
               (nth_error l i).
Proof. apply nth_error_map. Qed.

Lemma map_url_toggle (n : jsstring) (en : bool) (l : list RelayConfigItem) :
  map url (map (fun r => if url_is n r then with_enabled r en else r) l)
  = map url l.
Proof.
  rewrite map_map. apply map_ext. intros r. now destruct (url_is n r).
Qed.

End RelayLists.

(* ================================================================== *)
(** ** The selector's upsert *)

Section Upsert.

Lemma upsertRelay_blank (raw : jsstring) (en : bool) (c : AppConfig) :
  normalizeRelayUrl raw = [] -> exec (upsertRelay raw en) c = c.
Proof. intros H. unfold upsertRelay. now rewrite H. Qed.

Lemma upsertRelay_updater (raw : jsstring) (en : bool) (c : AppConfig) :
  normalizeRelayUrl raw <> [] ->
  exec (upsertRelay raw en) c = upsertUpdater (normalizeRelayUrl raw) en c.
Proof.
  intros H. unfold upsertRelay. apply is_empty_false in H. now rewrite H.
Qed.

(** The three ways the updater can go, with the URL it looks up being
    the normalised input. *)
Lemma upsertRelay_cases (raw : jsstring) (en : bool) (c : AppConfig) :
  let n := normalizeRelayUrl raw in
  let c' := exec (upsertRelay raw en) c in
  c' = c
  \/ (exists e, find (url_is n) (relays c) = Some e /\
        c' = with_relays c
               (map (fun r => if url_is n r then with_enabled r en else r)
                    (relays c)))
  \/ (n <> [] /\ find (url_is n) (relays c) = None /\
        c' = with_relays c (relays c ++ [ {| url := n; enabled := true |} ])).
Proof.
  intros n c'. subst c'.
  assert (Hn : n = normalizeRelayUrl raw) by reflexivity. clearbody n.
  destruct (is_empty n) eqn:E.
  - left. apply upsertRelay_blank. apply is_empty_true in E. congruence.
  - apply is_empty_false in E.
    rewrite upsertRelay_updater by congruence.
    unfold upsertUpdater. rewrite normalize_idem, <- Hn.
    destruct (find (url_is n) (relays c)) as [e|] eqn:F.
    + destruct (enabled e && negb en && _); [now left|].
      right; left. now exists e.
    + right; right. auto.
Qed.

Lemma upsertRelay_absent (raw : jsstring) (en : bool) (c : AppConfig) :
  normalizeRelayUrl raw <> [] ->
  (forall r, In r (relays c) -> url r <> normalizeRelayUrl raw) ->
  exec (upsertRelay raw en) c
  = with_relays c
      (relays c ++ [ {| url := normalizeRelayUrl raw; enabled := true |} ]).
Proof.
  intros Hn Habs. rewrite upsertRelay_updater by exact Hn.
  unfold upsertUpdater. rewrite normalize_idem.
  apply find_url_none in Habs. now rewrite Habs.
Qed.

Lemma upsertRelay_enable_present (raw : jsstring) (c : AppConfig) :
  normalizeRelayUrl raw <> [] ->
  (exists r, In r (relays c) /\ url r = normalizeRelayUrl raw) ->
  exec (upsertRelay raw true) c
  = with_relays c
      (map (fun r => if url_is (normalizeRelayUrl raw) r
                     then with_enabled r true else r)
           (relays c)).
Proof.
  intros Hn (r & Hr & Ur). rewrite upsertRelay_updater by exact Hn.
  unfold upsertUpdater. rewrite normalize_idem.
  destruct (find (url_is (normalizeRelayUrl raw)) (relays c)) as [e|] eqn:F.
  - cbn [negb]. now rewrite andb_false_r.
  - exfalso. rewrite find_url_none in F. now apply (F r).
Qed.

End Upsert.

(* ================================================================== *)
(** ** Claims on normalisation and on the selector *)

(** C7 (as amended). Normalising twice is normalising once;
    ["relay.example.com"] becomes ["wss://relay.example.com"] and
    ["ws://x"] stays; the result is the trimmed input, with ["wss://"]
    put in front exactly when the trimmed input is not empty and holds no
    ["://"]. *)
Theorem normalizeRelayUrl_idempotent_and_shape :
  (forall x, normalizeRelayUrl (normalizeRelayUrl x) = normalizeRelayUrl x)
  /\ normalizeRelayUrl (lit "relay.example.com") = lit "wss://relay.example.com"
  /\ normalizeRelayUrl (lit "ws://x") = lit "ws://x"
  /\ (forall x,
        (trim x <> [] /\ includes scheme_sep (trim x) = false ->
         normalizeRelayUrl x = lit "wss://" ++ trim x)
        /\ (trim x = [] \/ includes scheme_sep (trim x) = true ->
            normalizeRelayUrl x = trim x)).
Proof.
  split; [exact normalize_idem|].
  split; [reflexivity|]. split; [reflexivity|].
  intros x. unfold normalizeRelayUrl. split.
  - intros [Hne Hinc]. apply is_empty_false in Hne. now rewrite Hne, Hinc.
  - intros [He|Hinc].
    + now rewrite He.
    + rewrite Hinc. now destruct (is_empty (trim x)).
Qed.

Lemma normalizeRelayUrl_idempotent_and_shape_witness :
  normalizeRelayUrl (lit " nos.lol ") = lit "wss://nos.lol"
  /\ normalizeRelayUrl (lit " ws://x ") = lit "ws://x".
Proof.
  destruct normalizeRelayUrl_idempotent_and_shape as (_ & _ & _ & H).
  split.
  - apply (proj1 (H (lit " nos.lol "))). split; [discriminate | reflexivity].
  - apply (proj2 (H (lit " ws://x "))). right. reflexivity.
Defined.

(** C7, as first stated, fails on the empty string: it holds no ["://"],
    yet nothing is put in front of it. *)
Lemma normalizeRelayUrl_blank_not_prefixed :
  includes scheme_sep (trim (lit "")) = false
  /\ normalizeRelayUrl (lit "") <> lit "wss://" ++ trim (lit "").
Proof. split; [reflexivity | discriminate]. Qed.

Lemma upsertUpdater_keeps_enabled (u : jsstring) (en : bool) (c : AppConfig) :
  NoDup (map url (relays c)) -> hasEnabled c = true ->
  hasEnabled (upsertUpdater u en c) = true.
Proof.
  unfold hasEnabled, upsertUpdater. intros ND HE.
  set (n := normalizeRelayUrl u).
  destruct (find (url_is n) (relays c)) as [e|] eqn:F.
  - destruct (enabled e && negb en && _) eqn:G; [exact HE|].
    apply find_url_some in F. destruct F as [He Ue].
    cbn [relays with_relays]. apply existsb_enabled.
    assert (keep : forall r, In r (relays c) -> enabled r = true ->
                             url r <> n ->
              exists r', In r' (map (fun r => if url_is n r
                                             then with_enabled r en else r)
                                    (relays c)) /\ enabled r' = true).
    { intros r Hr Er Ur. exists r. split; auto.
      apply in_map_iff. exists r. split; auto.
      apply url_is_false in Ur. now rewrite Ur. }
    destruct en.
    + exists (with_enabled e true). split; auto.
      apply in_map_iff. exists e. split; auto.
      apply url_is_true in Ue. now rewrite Ue.
    + destruct (enabled e) eqn:Ee.
      * cbn in G. apply Nat.leb_gt in G.
        destruct (other_enabled n (relays c) ND) as (r & Hr & Er & Ur); [lia|].
        now apply (keep r).
      * apply existsb_enabled in HE. destruct HE as (r & Hr & Er).
        apply (keep r Hr Er). intros Ur.
        assert (r = e) by (apply (url_key (relays c)); auto; congruence).
        congruence.
  - cbn [relays with_relays]. rewrite existsb_app. cbn. apply orb_true_r.
Qed.

(** X26. Where the guard does hold: on a configuration whose relay URLs
    are pairwise distinct and that has an enabled relay, every upsert
    leaves an enabled relay; and when exactly one relay is enabled and its
    URL is already in normal form, disabling that URL returns the
    configuration unchanged. *)
Theorem upsertRelay_keeps_an_enabled_relay (c : AppConfig) :
  NoDup (map url (relays c)) ->
  hasEnabled c = true ->
  (forall raw en, hasEnabled (exec (upsertRelay raw en) c) = true)
  /\ (forall r, filter enabled (relays c) = [r] ->
                normalizeRelayUrl (url r) = url r ->
                exec (upsertRelay (url r) false) c = c).
Proof.
  intros ND HE. split.
  - intros raw en. destruct (normalizeRelayUrl raw) as [|k t] eqn:N.
    + now rewrite upsertRelay_blank.
    + rewrite upsertRelay_updater by (rewrite N; discriminate).
      now apply upsertUpdater_keeps_enabled.
  - intros r Hf Hn.
    assert (Hr : In r (relays c) /\ enabled r = true).
    { apply filter_In. rewrite Hf. now left. }
    destruct Hr as [Hr Er].
    destruct (url r) as [|k t] eqn:U.
    + now apply upsertRelay_blank.
    + rewrite upsertRelay_updater by (rewrite Hn; discriminate).
      unfold upsertUpdater. rewrite normalize_idem, Hn, Hf.
      destruct (find (url_is (k :: t)) (relays c)) as [e|] eqn:F.
      * apply find_url_some in F. destruct F as [He Ue].
        assert (e = r) by (apply (url_key (relays c)); auto; congruence).
        subst e. now rewrite Er.
      * exfalso. rewrite find_url_none in F. now apply (F r).
Qed.

Lemma upsertRelay_keeps_an_enabled_relay_witness :
  hasEnabled (exec (upsertRelay (lit "wss://b.example") false) Fixtures.one_on)
  = true
  /\ exec (upsertRelay (lit "wss://b.example") false) Fixtures.one_on
     = Fixtures.one_on.
Proof.
  assert (ND : NoDup (map url (relays Fixtures.one_on))).
  { repeat constructor; simpl; intuition discriminate. }
  destruct (upsertRelay_keeps_an_enabled_relay Fixtures.one_on ND eq_refl)
    as [H1 H2].
  split.
  - apply H1.
  - apply (H2 (Fixtures.relay "wss://b.example" true)); reflexivity.
Defined.

(** C5. The guard against disabling the last enabled relay misses two
    inputs. When the list names its only enabled URL twice, the guard
    counts two enabled entries, lets the disable through, and the rewrite
    by URL switches both off: no relay is left enabled. When the only
    enabled relay is stored under a URL that is not its own normal form,
    disabling that URL looks up the normal form, finds nothing, and
    appends a new enabled entry instead of leaving the configuration as
    it was. *)
Lemma upsertRelay_disable_not_guarded :
  (hasEnabled Fixtures.twice_on = true
   /\ exec (upsertRelay (lit "wss://a.example") false) Fixtures.twice_on
      = {| theme := light;
           relays := [ Fixtures.relay "wss://a.example" false;
                       Fixtures.relay "wss://a.example" false ] |}
   /\ hasEnabled (exec (upsertRelay (lit "wss://a.example") false)
                       Fixtures.twice_on) = false)
  /\ (filter enabled (relays Fixtures.bare_scheme)
      = [ Fixtures.relay "wss:relay.example" true ]
      /\ exec (upsertRelay (lit "wss:relay.example") false)
              Fixtures.bare_scheme
         = {| theme := dark;
              relays := [ Fixtures.relay "wss:relay.example" true;
                          Fixtures.relay "wss://wss:relay.example" true ] |}).
Proof. repeat split; reflexivity. Qed.

(** C6 (as amended). For an input whose normal form [n] is not empty,
    enabling either sets [enabled] on every entry whose URL is [n] (the
    one such entry when URLs are distinct), leaving length, URLs and
    order as they were, when [n] is listed; or appends [{url: n,
    enabled: true}] when it is not. An input whose normal form is empty
    changes nothing. ["my.relay.org"] is appended as
    ["wss://my.relay.org"]. *)
Theorem upsertRelay_enable_toggles_or_appends (c : AppConfig) (raw : jsstring) :
  let n := normalizeRelayUrl raw in
  let c' := exec (upsertRelay raw true) c in
  (n = [] -> c' = c)
  /\ (n <> [] -> (exists r, In r (relays c) /\ url r = n) ->
      theme c' = theme c
      /\ length (relays c') = length (relays c)
      /\ map url (relays c') = map url (relays c)
      /\ forall i r, nth_error (relays c) i = Some r ->
           nth_error (relays c') i
           = Some (if JsString.eqb (url r) n then with_enabled r true else r))
  /\ (n <> [] -> (forall r, In r (relays c) -> url r <> n) ->
      c' = with_relays c (relays c ++ [ {| url := n; enabled := true |} ]))
  /\ ((forall r, In r (relays c) -> url r <> lit "wss://my.relay.org") ->
      relays (exec (upsertRelay (lit "my.relay.org") true) c)
      = relays c ++ [ {| url := lit "wss://my.relay.org"; enabled := true |} ]).
Proof.
  intros n c'. subst n c'.
  split; [apply upsertRelay_blank|].
  split; [|split].
  - intros Hn Hex. rewrite upsertRelay_enable_present by assumption.
    cbn [theme relays with_relays].
    split; [reflexivity|]. split; [apply length_map|].
    split; [apply map_url_toggle|].
    intros i r Hi. rewrite nth_error_toggle, Hi. reflexivity.
  - apply upsertRelay_absent.
  - intros Habs. rewrite upsertRelay_absent; [reflexivity | discriminate |].
    exact Habs.
Qed.

Lemma upsertRelay_enable_toggles_or_appends_witness :
  relays (exec (upsertRelay (lit "my.relay.org") true) Fixtures.one_on)
  = relays Fixtures.one_on
    ++ [ {| url := lit "wss://my.relay.org"; enabled := true |} ]
  /\ nth_error
       (relays (exec (upsertRelay (lit " a.example ") true) Fixtures.one_on)) 0
     = Some (Fixtures.relay "wss://a.example" true).
Proof.
  split.
  - apply (upsertRelay_enable_toggles_or_appends
             Fixtures.one_on (lit "my.relay.org")).
    simpl. intros r [<-|[<-|[]]]; discriminate.
  - destruct (upsertRelay_enable_toggles_or_appends
                Fixtures.one_on (lit " a.example ")) as (_ & H & _).
    apply (fun ne ex => proj2 (proj2 (proj2 (H ne ex))) 0
                          (Fixtures.relay "wss://a.example" false)).
    + discriminate.
    + exists (Fixtures.relay "wss://a.example" false).
      split; [now left | reflexivity].
    + reflexivity.
Defined.

(** C6, as first stated, fails on blank input: no entry has the (empty)
    normal form as its URL, and nothing is appended. *)
Lemma upsertRelay_enable_blank_appends_nothing :
  (forall r, In r (relays Fixtures.defaultConfig) ->
             url r <> normalizeRelayUrl (lit "  "))
  /\ relays (exec (upsertRelay (lit "  ") true) Fixtures.defaultConfig)
     <> relays Fixtures.defaultConfig
        ++ [ {| url := normalizeRelayUrl (lit "  "); enabled := true |} ].
Proof.
  split.
  - simpl. intros r H. repeat (destruct H as [<-|H]; [discriminate|]).
    contradiction.
  - discriminate.
Qed.

(** C9 (as amended). For an input whose normal form is not empty and is
    not listed, a disable request appends [{url: normal form, enabled:
    true}]: the flag asked for is not used, and the configuration is not
    left as it was. *)
Theorem upsertRelay_disable_absent_appends_enabled
        (c : AppConfig) (raw : jsstring) :
  normalizeRelayUrl raw <> [] ->
  (forall r, In r (relays c) -> url r <> normalizeRelayUrl raw) ->
  exec (upsertRelay raw false) c
  = {| theme := theme c;
       relays := relays c
                 ++ [ {| url := normalizeRelayUrl raw; enabled := true |} ] |}
  /\ exec (upsertRelay raw false) c <> c.
Proof.
  intros Hn Habs. rewrite upsertRelay_absent by assumption. split.
  - reflexivity.
  - intros E. apply (f_equal (fun x => length (relays x))) in E.
    cbn [relays with_relays] in E. rewrite length_app in E. simpl in E. lia.
Qed.

Lemma upsertRelay_disable_absent_appends_enabled_witness :
  exec (upsertRelay (lit "c.example") false) Fixtures.one_on
  = {| theme := system;
       relays := [ Fixtures.relay "wss://a.example" false;
                   Fixtures.relay "wss://b.example" true;
                   Fixtures.relay "wss://c.example" true ] |}.
Proof.
  apply (upsertRelay_disable_absent_appends_enabled
           Fixtures.one_on (lit "c.example")).
  - discriminate.
  - simpl. intros r [<-|[<-|[]]]; discriminate.
Defined.

(** C9, as first stated, fails on blank input: its normal form is not
    listed, and the configuration is left as it was. *)
Lemma upsertRelay_disable_blank_unchanged :
  (forall r, In r (relays Fixtures.defaultConfig) ->
             url r <> normalizeRelayUrl (lit ""))
  /\ exec (upsertRelay (lit "") false) Fixtures.defaultConfig
     = Fixtures.defaultConfig.
Proof.
  split.
  - simpl. intros r H. repeat (destruct H as [<-|H]; [discriminate|]).
    contradiction.
  - reflexivity.
Qed.

(** C10 (as amended). An upsert keeps the theme, removes no entry, keeps
    every URL and the order; the result is the original list in which
    only entries whose URL is the normalised input may have a new
    [enabled] flag (at most one entry when URLs are pairwise distinct),
    or the original list with one entry appended. *)
Theorem upsertRelay_frame (c : AppConfig) (raw : jsstring) (en : bool) :
  let c' := exec (upsertRelay raw en) c in
  theme c' = theme c
  /\ firstn (length (relays c)) (map url (relays c')) = map url (relays c)
  /\ (length (relays c') = length (relays c)
      \/ relays c'
         = relays c ++ [ {| url := normalizeRelayUrl raw; enabled := true |} ])
  /\ (forall i r r', nth_error (relays c) i = Some r ->
        nth_error (relays c') i = Some r' -> r' <> r ->
        url r = normalizeRelayUrl raw /\ r' = with_enabled r en)
  /\ (NoDup (map url (relays c)) ->
      exists k, forall i r,
        nth_error (relays c) i = Some r -> i <> k ->
        nth_error (relays c') i = Some r).
Proof.
  intros c'.
  assert (T : theme c' = theme c).
  { destruct (upsertRelay_cases raw en c) as [E|[(e & _ & E)|(_ & _ & E)]];
      fold c' in E; rewrite E; reflexivity. }
  assert (U : firstn (length (relays c)) (map url (relays c'))
              = map url (relays c)).
  { destruct (upsertRelay_cases raw en c) as [E|[(e & _ & E)|(_ & _ & E)]];
      fold c' in E; rewrite E; cbn [relays with_relays].
    - rewrite <- (length_map url). apply firstn_all.
    - rewrite map_url_toggle, <- (length_map url). apply firstn_all.
    - rewrite map_app, <- (length_map url (relays c)), firstn_app, firstn_all.
      rewrite Nat.sub_diag. simpl. apply app_nil_r. }
  assert (L : length (relays c') = length (relays c)
              \/ relays c' = relays c
                   ++ [ {| url := normalizeRelayUrl raw; enabled := true |} ]).
  { destruct (upsertRelay_cases raw en c) as [E|[(e & _ & E)|(_ & _ & E)]];
      fold c' in E; rewrite E; cbn [relays with_relays]; auto.
    left. apply length_map. }
  assert (P : forall i r r', nth_error (relays c) i = Some r ->
                nth_error (relays c') i = Some r' -> r' <> r ->
                url r = normalizeRelayUrl raw /\ r' = with_enabled r en).
  { intros i r r' Hi Hi' Hne.
    destruct (upsertRelay_cases raw en c) as [E|[(e & _ & E)|(_ & _ & E)]];
      fold c' in E; rewrite E in Hi'; cbn [relays with_relays] in Hi'.
    - congruence.
    - rewrite nth_error_toggle, Hi in Hi'. cbn in Hi'.
      destruct (url_is (normalizeRelayUrl raw) r) eqn:Ur.
      + apply url_is_true in Ur. split; congruence.
      + congruence.
    - rewrite nth_error_app1 in Hi' by (apply nth_error_Some; congruence).
      congruence. }
  split; [exact T|]. split; [exact U|]. split; [exact L|]. split; [exact P|].
  intros ND.
  destruct (upsertRelay_cases raw en c) as [E|[(e & F & E)|(_ & _ & E)]];
    fold c' in E; rewrite E; cbn [relays with_relays].
  - exists 0. auto.
  - apply find_url_some in F. destruct F as [He Ue].
    destruct (In_nth_error _ _ He) as [k Hk].
    exists k. intros i r Hi Hik.
    rewrite nth_error_toggle, Hi. cbn.
    destruct (url_is (normalizeRelayUrl raw) r) eqn:Ur; [|reflexivity].
    exfalso. apply Hik. apply url_is_true in Ur.
    apply (proj1 (NoDup_nth_error (map url (relays c))) ND).
    + rewrite length_map. apply nth_error_Some. congruence.
    + rewrite !nth_error_map, Hi, Hk. cbn. congruence.
  - exists 0. intros i r Hi _.
    rewrite nth_error_app1 by (apply nth_error_Some; congruence). exact Hi.
Qed.

Lemma upsertRelay_frame_witness :
  exists k, forall i r,
    nth_error (relays Fixtures.one_on) i = Some r -> i <> k ->
    nth_error (relays (exec (upsertRelay (lit "a.example") true)
                            Fixtures.one_on)) i = Some r.
Proof.
  apply (upsertRelay_frame Fixtures.one_on (lit "a.example") true).
  repeat constructor; simpl; intuition discriminate.
Defined.

(** C10, as first stated, fails when the list names a relay twice: one
    upsert changes the flag of both entries. *)
Lemma upsertRelay_changes_two_flags :
  length (relays (exec (upsertRelay (lit "wss://a.example") true)
                       Fixtures.twice_off))
  = length (relays Fixtures.twice_off)
  /\ nth_error (relays (exec (upsertRelay (lit "wss://a.example") true)
                             Fixtures.twice_off)) 0
     <> nth_error (relays Fixtures.twice_off) 0
  /\ nth_error (relays (exec (upsertRelay (lit "wss://a.example") true)
                             Fixtures.twice_off)) 1
     <> nth_error (relays Fixtures.twice_off) 1.
Proof. repeat split; discriminate. Qed.

(* ================================================================== *)
(** ** Claims on the configuration store *)

Section StoreClaims.

Variable number : Type.
Variable is_url : jsstring -> bool.
Variable JSON_parse : jsstring -> completion (json number).

Lemma deserialize_throw (d : AppConfig) (value : jsstring) :
  JSON_parse value = Throw -> deserialize is_url JSON_parse d value = Normal d.
Proof. intros H. unfold deserialize. now rewrite H. Qed.

Lemma deserialize_parsed (d : AppConfig) (value : jsstring) parsed :
  JSON_parse value = Normal parsed ->
  deserialize is_url JSON_parse d value = Normal (decode is_url d parsed).
Proof. intros H. unfold deserialize. now rewrite H. Qed.

Lemma ThemeSchema_inv (v : json number) (t : Theme) :
  ThemeSchema v = Some t -> v = JString (theme_name t).
Proof.
  destruct v as [| | |s| |]; simpl; try discriminate.
  destruct (JsString.eqb s (lit "dark")) eqn:E1;
    [apply eqb_eq in E1; intros [= <-]; now subst|].
  destruct (JsString.eqb s (lit "light")) eqn:E2;
    [apply eqb_eq in E2; intros [= <-]; now subst|].
  destruct (JsString.eqb s (lit "system")) eqn:E3;
    [apply eqb_eq in E3; intros [= <-]; now subst|].
  discriminate.
Qed.

Lemma UrlSchema_inv (v : json number) (u : jsstring) :
  UrlSchema is_url v = Some u -> v = JString u /\ is_url u = true.
Proof.
  destruct v as [| | |s| |]; simpl; try discriminate.
  destruct (is_url s) eqn:E; [|discriminate]. intros [= <-]. auto.
Qed.

Lemma field_inv {A} (schema : json number -> option A) k props a :
  field schema k props = Some a ->
  exists v, get k props = Some v /\ schema v = Some a.
Proof.
  unfold field. destruct (get k props) as [v|]; [|discriminate].
  intros H. now exists v.
Qed.

(** What a payload accepted by the legacy schema looks like. *)
Lemma LegacyAppConfigSchema_inv (v : json number) t u :
  LegacyAppConfigSchema is_url v
  = Some {| legacy_theme := t; relayUrl := u |} ->
  exists props,
    v = JObject props
    /\ get (lit "theme") props = Some (JString (theme_name t))
    /\ get (lit "relayUrl") props = Some (JString u)
    /\ is_url u = true.
Proof.
  unfold LegacyAppConfigSchema.
  destruct v as [| | | | |props]; try discriminate.
  destruct (field (@ThemeSchema number) (lit "theme") props)
    as [t'|] eqn:Ft; [|discriminate].
  destruct (field (UrlSchema is_url) (lit "relayUrl") props)
    as [u'|] eqn:Fu; [|discriminate].
  intros [= -> ->].
  apply field_inv in Ft. destruct Ft as (vt & Gt & St).
  apply field_inv in Fu. destruct Fu as (vu & Gu & Su).
  apply ThemeSchema_inv in St. apply UrlSchema_inv in Su.
  destruct Su as [-> Hu]. subst vt. exists props. auto.
Qed.

(** What a payload accepted by the current schema looks like. *)
Lemma AppConfigSchema_inv (v : json number) (data : AppConfig) :
  AppConfigSchema is_url v = Some data ->
  exists props items,
    v = JObject props
    /\ get (lit "theme") props = Some (JString (theme_name (theme data)))
    /\ get (lit "relays") props = Some (JArray items)
    /\ parse_all (RelayConfigItemSchema is_url) items = Some (relays data)
    /\ 1 <= length (relays data).
Proof.
  unfold AppConfigSchema.
  destruct v as [| | | | |props]; try discriminate.
  destruct (field (@ThemeSchema number) (lit "theme") props)
    as [t|] eqn:Ft; [|discriminate].
  destruct (field (RelaysSchema is_url) (lit "relays") props)
    as [rs|] eqn:Fr; [|discriminate].
  intros [= <-]. cbn [theme relays].
  apply field_inv in Ft. destruct Ft as (vt & Gt & St).
  apply field_inv in Fr. destruct Fr as (vr & Gr & Sr).
  apply ThemeSchema_inv in St. subst vt.
  unfold RelaysSchema in Sr. destruct vr as [| | | |items|]; try discriminate.
  destruct (parse_all (RelayConfigItemSchema is_url) items) as [rs'|] eqn:P;
    [|discriminate].
  destruct (1 <=? length rs') eqn:L; [|discriminate].
  injection Sr as <-. apply Nat.leb_le in L.
  exists props, items. auto.
Qed.

(** A payload accepted by the current schema has a relay. *)
Lemma AppConfigSchema_nonempty (v : json number) (data : AppConfig) :
  AppConfigSchema is_url v = Some data -> relays data <> [].
Proof.
  intros H. destruct (AppConfigSchema_inv v data H) as (_ & _ & _ & _ & _ & _ & L).
  destruct (relays data); [simpl in L; lia | discriminate].
Qed.

Lemma mapi_from_all_off (l : list RelayConfigItem) (i : nat) :
  existsb enabled l = false ->
  mapi_from (fun r k => with_enabled r (k =? 0)) (S i) l = l.
Proof.
  revert i. induction l as [|r l IH]; intros i; simpl; [reflexivity|].
  rewrite orb_false_iff. intros [Er El]. rewrite (IH _ El).
  destruct r as [u b]; simpl in *. now subst b.
Qed.

(** C1. A stored text whose parsing throws, or whose parsed value is
    rejected by the current and by the legacy schema, deserialises to
    the default configuration handed in; the call completes normally. *)
Theorem deserialize_falls_back_to_default (d : AppConfig) (value : jsstring) :
  (JSON_parse value = Throw
   \/ exists parsed, JSON_parse value = Normal parsed
                     /\ AppConfigSchema is_url parsed = None
                     /\ LegacyAppConfigSchema is_url parsed = None) ->
  deserialize is_url JSON_parse d value = Normal d.
Proof.
  intros [H|(parsed & H & Hnew & Hold)].
  - now apply deserialize_throw.
  - rewrite (deserialize_parsed d value parsed H). unfold decode.
    now rewrite Hnew, Hold.
Qed.

(** C2. A parsed value rejected by the current schema and accepted by
    the legacy one, as [{theme: t, relayUrl: u}], deserialises to
    [{theme: t, relays: [{url: u, enabled: true}]}]; [t] and [u] are
    the payload's own [theme] and [relayUrl] properties. *)
Theorem deserialize_migrates_legacy
        (d : AppConfig) (value : jsstring) (parsed : json number)
        (t : Theme) (u : jsstring) :
  JSON_parse value = Normal parsed ->
  AppConfigSchema is_url parsed = None ->
  LegacyAppConfigSchema is_url parsed
  = Some {| legacy_theme := t; relayUrl := u |} ->
  deserialize is_url JSON_parse d value
  = Normal {| theme := t; relays := [ {| url := u; enabled := true |} ] |}
  /\ exists props,
       parsed = JObject props
       /\ get (lit "theme") props = Some (JString (theme_name t))
       /\ get (lit "relayUrl") props = Some (JString u).
Proof.
  intros H Hnew Hold. split.
  - rewrite (deserialize_parsed d value parsed H). unfold decode.
    now rewrite Hnew, Hold.
  - destruct (LegacyAppConfigSchema_inv _ _ _ Hold) as (props & E & Gt & Gu & _).
    exists props. auto.
Qed.

(** C3. A parsed value accepted by the current schema in which no relay
    is enabled deserialises to the same theme and the same relays, the
    first one with [enabled: true] and every other entry as it was. *)
Theorem deserialize_enables_first_relay
        (d : AppConfig) (value : jsstring) (parsed : json number)
        (data : AppConfig) :
  JSON_parse value = Normal parsed ->
  AppConfigSchema is_url parsed = Some data ->
  existsb enabled (relays data) = false ->
  exists first rest,
    relays data = first :: rest
    /\ deserialize is_url JSON_parse d value
       = Normal {| theme := theme data;
                   relays := {| url := url first; enabled := true |} :: rest |}
    /\ map url ({| url := url first; enabled := true |} :: rest)
       = map url (relays data)
    /\ length ({| url := url first; enabled := true |} :: rest)
       = length (relays data).
Proof.
  intros H Hnew Hoff.
  pose proof (AppConfigSchema_nonempty _ _ Hnew) as Hne.
  destruct (relays data) as [|first rest] eqn:R; [congruence|].
  exists first, rest. split; [reflexivity|]. split.
  - rewrite (deserialize_parsed d value parsed H). unfold decode.
    rewrite Hnew, R, Hoff. unfold with_relays, mapi. cbn [mapi_from Nat.eqb].
    simpl in Hoff. apply orb_false_iff in Hoff.
    now rewrite (mapi_from_all_off rest 0 (proj2 Hoff)).
  - split; reflexivity.
Qed.

(** C4. Whatever the stored text, deserialising completes normally
    with a configuration whose relay list is not empty and holds an
    enabled relay, provided the default handed in is such a
    configuration. *)
Theorem deserialize_wellFormed (d : AppConfig) (value : jsstring) :
  wellFormed d ->
  exists c, deserialize is_url JSON_parse d value = Normal c /\ wellFormed c.
Proof.
  intros Hd. destruct (JSON_parse value) as [parsed|] eqn:H.
  - rewrite (deserialize_parsed d value parsed H).
    eexists; split; [reflexivity|]. unfold decode.
    destruct (AppConfigSchema is_url parsed) as [data|] eqn:Hnew.
    + pose proof (AppConfigSchema_nonempty _ _ Hnew) as Hne.
      destruct (existsb enabled (relays data)) eqn:He.
      * split; [exact Hne|]. now apply existsb_enabled.
      * destruct (relays data) as [|first rest]; [congruence|].
        unfold wellFormed, with_relays, mapi. cbn [relays mapi_from Nat.eqb].
        split; [discriminate|].
        exists (with_enabled first true). split; [now left | reflexivity].
    + destruct (LegacyAppConfigSchema is_url parsed) as [[t u]|]; [|exact Hd].
      split; [discriminate|]. cbn [relays].
      eexists; split; [now left | reflexivity].
  - exists d. split; [now apply deserialize_throw | exact Hd].
Qed.

End StoreClaims.

Lemma deserialize_falls_back_to_default_witness :
  deserialize Fixtures.url_fixture Fixtures.parse_fixture
              Fixtures.defaultConfig (lit "{oops")
  = Normal Fixtures.defaultConfig
  /\ deserialize Fixtures.url_fixture Fixtures.parse_fixture
                 Fixtures.defaultConfig (lit "[1]")
     = Normal Fixtures.defaultConfig.
Proof.
  split; apply deserialize_falls_back_to_default.
  - left. reflexivity.
  - right. exists (JArray [JNumber 1%Z]). repeat split; reflexivity.
Defined.

Lemma deserialize_migrates_legacy_witness :
  deserialize Fixtures.url_fixture Fixtures.parse_fixture
              Fixtures.defaultConfig Fixtures.legacy_text
  = Normal {| theme := light;
              relays := [ Fixtures.relay "wss://old.example" true ] |}.
Proof.
  apply (deserialize_migrates_legacy
           Z Fixtures.url_fixture Fixtures.parse_fixture Fixtures.defaultConfig
           Fixtures.legacy_text Fixtures.legacy_value light
           (lit "wss://old.example"));
    reflexivity.
Defined.

Lemma deserialize_enables_first_relay_witness :
  exists first rest,
    [ Fixtures.relay "wss://a.example" false;
      Fixtures.relay "wss://b.example" false ] = first :: rest
    /\ deserialize Fixtures.url_fixture Fixtures.parse_fixture
                   Fixtures.defaultConfig Fixtures.all_off_text
       = Normal {| theme := system;
                   relays := {| url := url first; enabled := true |} :: rest |}.
Proof.
  destruct (deserialize_enables_first_relay
              Z Fixtures.url_fixture Fixtures.parse_fixture
              Fixtures.defaultConfig Fixtures.all_off_text
              Fixtures.all_off_value
              {| theme := system;
                 relays := [ Fixtures.relay "wss://a.example" false;
                             Fixtures.relay "wss://b.example" false ] |}
              eq_refl eq_refl eq_refl)
    as (first & rest & E & D & _).
  exists first, rest. split; [exact E | exact D].
Defined.

Lemma deserialize_wellFormed_witness :
  exists c,
    deserialize Fixtures.url_fixture Fixtures.parse_fixture
                Fixtures.defaultConfig Fixtures.all_off_text = Normal c
    /\ wellFormed c.
Proof.
  apply deserialize_wellFormed. split; [discriminate|].
  exists (Fixtures.relay "wss://nos.lol" true).
  split; [simpl; tauto | reflexivity].
Defined.

(* ================================================================== *)
(** ** Claims on the relay pool adapter *)

(** On a configuration with an enabled relay the list the ref is created
    with is already the list the effect computes. *)
Lemma relayUrls_initial_effect (c : AppConfig) :
  hasEnabled c = true -> relayUrls_initial c = relayUrls_effect c.
Proof.
  unfold hasEnabled, relayUrls_initial, relayUrls_effect, enabledUrls.
  intros H. destruct (filter enabled (relays c)) as [|r l] eqn:F.
  - apply filter_enabled_nil in F. congruence.
  - reflexivity.
Qed.

(** The list the effect assigns: the URLs of the enabled relays when
    there are any, and otherwise the URL of the first configured relay
    alone, whatever its flag; with a relay configured it is not empty. *)
Theorem relayUrls_active (current : list jsstring) (c : AppConfig) :
  (enabledUrls c <> [] -> step current (Effect c) = enabledUrls c)
  /\ (enabledUrls c = [] ->
      forall first rest, relays c = first :: rest ->
                         step current (Effect c) = [url first])
  /\ (relays c <> [] -> step current (Effect c) <> []).
Proof.
  cbn [step]. unfold relayUrls_effect.
  destruct (enabledUrls c) as [|u us] eqn:E.
  - split; [congruence|]. cbn. split.
    + intros _ first rest ->. reflexivity.
    + destruct (relays c); [congruence | discriminate].
  - split; [reflexivity|]. split; [discriminate|]. discriminate.
Qed.

Lemma relayUrls_active_witness :
  step [] (Effect Fixtures.one_on) = [lit "wss://b.example"]
  /\ step [] (Effect Fixtures.none_on) = [lit "wss://a.example"]
  /\ step [] (Effect Fixtures.none_on) <> [].
Proof.
  split; [|split].
  - apply (proj1 (relayUrls_active [] Fixtures.one_on)). discriminate.
  - apply (proj1 (proj2 (relayUrls_active [] Fixtures.none_on)) eq_refl
             (Fixtures.relay "wss://a.example" false)
             [Fixtures.relay "wss://b.example" false]).
    reflexivity.
  - apply (proj2 (proj2 (relayUrls_active [] Fixtures.none_on))). discriminate.
Defined.


(* ================================================================== *)
(** ** Further properties: normal forms and the selector's upsert *)

Section UpsertMore.

Lemma normalize_nil_iff (x : jsstring) :
  normalizeRelayUrl x = [] <-> trim x = [].
Proof.
  unfold normalizeRelayUrl. destruct (trim x) as [|c t]; [tauto|].
  cbn [is_empty]. destruct (includes scheme_sep (c :: t)); split; discriminate.
Qed.

(** X1. A normal form is never padded with white space; it is empty
    exactly when the input is blank, and otherwise it holds ["://"]. *)
Theorem normalizeRelayUrl_range (x : jsstring) :
  trim (normalizeRelayUrl x) = normalizeRelayUrl x
  /\ (normalizeRelayUrl x = [] <-> trim x = [])
  /\ (trim x <> [] -> includes (lit "://") (normalizeRelayUrl x) = true).
Proof.
  split; [apply normalize_trimmed|]. split; [apply normalize_nil_iff|].
  intros Hne. unfold normalizeRelayUrl.
  destruct (trim x) as [|c t]; [congruence|]. cbn [is_empty].
  destruct (includes scheme_sep (c :: t)) eqn:I; [exact I|].
  apply (includes_app_l scheme_sep wss (c :: t)). reflexivity.
Qed.

Lemma normalizeRelayUrl_range_witness :
  includes (lit "://") (normalizeRelayUrl (lit "  nos.lol")) = true.
Proof.
  apply (proj2 (proj2 (normalizeRelayUrl_range (lit "  nos.lol")))).
  discriminate.
Defined.

Lemma toggle_absent (n : jsstring) (en : bool) (l : list RelayConfigItem) :
  (forall r, In r l -> url r <> n) ->
  map (fun r => if url_is n r then with_enabled r en else r) l = l.
Proof.
  induction l as [|x l IH]; simpl; intros H; [reflexivity|].
  rewrite (proj2 (url_is_false n x)) by (apply H; now left).
  f_equal. apply IH. intros r Hr. apply H. now right.
Qed.

(** With distinct URLs the rewrite touches the one entry at [n]. *)
Lemma toggle_split (n : jsstring) (en : bool) (l : list RelayConfigItem) e :
  NoDup (map url l) -> In e l -> url e = n ->
  exists l1 l2,
    l = l1 ++ e :: l2
    /\ map (fun r => if url_is n r then with_enabled r en else r) l
       = l1 ++ with_enabled e en :: l2.
Proof.
  intros ND He Ue. destruct (in_split _ _ He) as (l1 & l2 & ->).
  exists l1, l2. split; [reflexivity|].
  rewrite map_app in ND. cbn [map] in ND.
  pose proof (NoDup_remove_2 _ _ _ ND) as Hout.
  rewrite map_app. cbn [map].
  rewrite (proj2 (url_is_true n e) Ue).
  rewrite !toggle_absent; [reflexivity | |].
  - intros r Hr Ur. apply Hout. apply in_or_app. right.
    rewrite Ue, <- Ur. now apply in_map.
  - intros r Hr Ur. apply Hout. apply in_or_app. left.
    rewrite Ue, <- Ur. now apply in_map.
Qed.

Lemma NoDup_snoc {A} (l : list A) (x : A) :
  NoDup l -> ~ In x l -> NoDup (l ++ [x]).
Proof.
  intros ND Hx. apply NoDup_app; [exact ND | repeat constructor; intros [] |].
  intros y Hy [<-|[]]. contradiction.
Qed.

(** The URLs after an upsert: the same, or one new URL at the end. *)
Lemma upsertRelay_urls (c : AppConfig) (raw : jsstring) (en : bool) :
  map url (relays (exec (upsertRelay raw en) c)) = map url (relays c)
  \/ (map url (relays (exec (upsertRelay raw en) c))
      = map url (relays c) ++ [normalizeRelayUrl raw]
      /\ ~ In (normalizeRelayUrl raw) (map url (relays c))).
Proof.
  destruct (upsertRelay_cases raw en c) as [E|[(e & _ & E)|(_ & F & E)]];
    rewrite E; cbn [relays with_relays].
  - now left.
  - left. apply map_url_toggle.
  - right. rewrite map_app. split; [reflexivity|].
    intros Hu. apply in_map_iff in Hu. destruct Hu as (r & Ur & Hr).
    rewrite find_url_none in F. exact (F r Hr Ur).
Qed.

(** X2. An upsert keeps the relay URLs pairwise distinct. *)
Theorem upsertRelay_keeps_urls_distinct
        (c : AppConfig) (raw : jsstring) (en : bool) :
  NoDup (map url (relays c)) ->
  NoDup (map url (relays (exec (upsertRelay raw en) c))).
Proof.
  intros ND. destruct (upsertRelay_urls c raw en) as [E|[E Hout]]; rewrite E.
  - exact ND.
  - now apply NoDup_snoc.
Qed.

Lemma upsertRelay_keeps_urls_distinct_witness :
  NoDup (map url (relays (exec (upsertRelay (lit "c.example") false)
                               Fixtures.one_on))).
Proof.
  apply upsertRelay_keeps_urls_distinct.
  repeat constructor; simpl; intuition discriminate.
Defined.

Lemma find_url_in (n : jsstring) (l : list RelayConfigItem) r :
  In r l -> url r = n -> exists e, find (url_is n) l = Some e.
Proof.
  intros Hr Ur. destruct (find (url_is n) l) as [e|] eqn:F; [now exists e|].
  rewrite find_url_none in F. now apply F in Hr.
Qed.

Lemma toggle_twice (n : jsstring) (en : bool) (l : list RelayConfigItem) :
  map (fun r => if url_is n r then with_enabled r en else r)
      (map (fun r => if url_is n r then with_enabled r en else r) l)
  = map (fun r => if url_is n r then with_enabled r en else r) l.
Proof.
  rewrite map_map. apply map_ext. intros r.
  destruct (url_is n r) eqn:U; [|now rewrite U].
  unfold url_is in *. cbn [url with_enabled]. now rewrite U.
Qed.

(** X3. Enabling the same input twice is enabling it once. *)
Theorem upsertRelay_enable_idempotent (c : AppConfig) (raw : jsstring) :
  exec (upsertRelay raw true) (exec (upsertRelay raw true) c)
  = exec (upsertRelay raw true) c.
Proof.
  destruct (normalizeRelayUrl raw) as [|k t] eqn:N.
  - now rewrite !upsertRelay_blank.
  - assert (Hn : normalizeRelayUrl raw <> []) by (rewrite N; discriminate).
    destruct (find (url_is (normalizeRelayUrl raw)) (relays c)) as [e|] eqn:F.
    + apply find_url_some in F. destruct F as [He Ue].
      rewrite (upsertRelay_enable_present raw c Hn) by (now exists e).
      rewrite upsertRelay_enable_present; [| exact Hn |].
      * unfold with_relays. cbn [theme relays]. now rewrite toggle_twice.
      * exists (with_enabled e true). split; [|exact Ue].
        cbn [relays with_relays]. apply in_map_iff. exists e. split; auto.
        now rewrite (proj2 (url_is_true _ e) Ue).
    + rewrite find_url_none in F.
      rewrite (upsertRelay_absent raw true c Hn F).
      rewrite upsertRelay_enable_present; [| exact Hn |].
      * unfold with_relays. cbn [theme relays]. f_equal.
        rewrite map_app, toggle_absent by exact F. cbn [map].
        unfold url_is at 1. cbn [url]. now rewrite eqb_refl.
      * exists {| url := normalizeRelayUrl raw; enabled := true |}.
        split; [|reflexivity]. cbn [relays with_relays].
        apply in_or_app. right. now left.
Qed.

Lemma enable_all_on (c : AppConfig) (raw : jsstring) :
  normalizeRelayUrl raw <> [] ->
  forall r, In r (relays (exec (upsertRelay raw true) c)) ->
            url r = normalizeRelayUrl raw -> enabled r = true.
Proof.
  intros Hn.
  destruct (find (url_is (normalizeRelayUrl raw)) (relays c)) as [e|] eqn:F.
  - apply find_url_some in F. destruct F as [He Ue].
    rewrite (upsertRelay_enable_present raw c Hn) by (now exists e).
    cbn [relays with_relays]. intros r Hr Ur.
    apply in_map_iff in Hr. destruct Hr as (r0 & <- & _).
    destruct (url_is (normalizeRelayUrl raw) r0) eqn:U; [reflexivity|].
    apply url_is_false in U. congruence.
  - rewrite find_url_none in F. rewrite (upsertRelay_absent raw true c Hn F).
    cbn [relays with_relays]. intros r Hr Ur.
    apply in_app_or in Hr. destruct Hr as [Hr|[<-|[]]]; [|reflexivity].
    now apply F in Hr.
Qed.

Lemma enable_lists_url (c : AppConfig) (raw : jsstring) :
  normalizeRelayUrl raw <> [] ->
  exists r, In r (relays (exec (upsertRelay raw true) c))
            /\ url r = normalizeRelayUrl raw.
Proof.
  intros Hn.
  destruct (find (url_is (normalizeRelayUrl raw)) (relays c)) as [e|] eqn:F.
  - apply find_url_some in F. destruct F as [He Ue].
    rewrite (upsertRelay_enable_present raw c Hn) by (now exists e).
    exists (with_enabled e true). split; [|exact Ue].
    cbn [relays with_relays]. apply in_map_iff. exists e. split; auto.
    now rewrite (proj2 (url_is_true _ e) Ue).
  - rewrite find_url_none in F. rewrite (upsertRelay_absent raw true c Hn F).
    exists {| url := normalizeRelayUrl raw; enabled := true |}.
    split; [|reflexivity]. cbn [relays with_relays].
    apply in_or_app. right. now left.
Qed.

(** X4. After enabling an input that is not blank, a lookup of its
    normal form finds an enabled entry, and no entry at that URL is left
    disabled. *)
Theorem upsertRelay_enable_then_found (c : AppConfig) (raw : jsstring) :
  normalizeRelayUrl raw <> [] ->
  (exists e, find (url_is (normalizeRelayUrl raw))
                  (relays (exec (upsertRelay raw true) c)) = Some e
             /\ enabled e = true)
  /\ (forall r, In r (relays (exec (upsertRelay raw true) c)) ->
                url r = normalizeRelayUrl raw -> enabled r = true).
Proof.
  intros Hn. split; [|now apply enable_all_on].
  destruct (enable_lists_url c raw Hn) as (r & Hr & Ur).
  destruct (find_url_in _ _ r Hr Ur) as [e F]. exists e. split; [exact F|].
  apply find_url_some in F. destruct F as [He Ue].
  now apply (enable_all_on c raw Hn).
Qed.

Lemma upsertRelay_enable_then_found_witness :
  exists e, find (url_is (normalizeRelayUrl (lit "a.example")))
                 (relays (exec (upsertRelay (lit "a.example") true)
                               Fixtures.one_on)) = Some e
            /\ enabled e = true.
Proof.
  apply (upsertRelay_enable_then_found Fixtures.one_on (lit "a.example")).
  discriminate.
Defined.

End UpsertMore.

Section UpsertSequences.

Lemma filter_enabled_absent_urls (n : jsstring) (l : list RelayConfigItem) :
  (forall r, In r l -> url r <> n) ->
  filter (fun u => negb (JsString.eqb u n)) (map url (filter enabled l))
  = map url (filter enabled l).
Proof.
  induction l as [|x l IH]; simpl; intros H; [reflexivity|].
  assert (Hl : forall r, In r l -> url r <> n) by (intros r Hr; apply H; now right).
  destruct (enabled x); simpl; [|now apply IH].
  rewrite (proj2 (eqb_neq (url x) n)) by (apply H; now left).
  simpl. f_equal. now apply IH.
Qed.

(** X5. With distinct URLs and two or more relays enabled, disabling an
    enabled relay takes exactly its URL out of the enabled URLs and
    leaves the others in their order. *)
Theorem upsertRelay_disable_removes_url
        (c : AppConfig) (raw : jsstring) (r : RelayConfigItem) :
  NoDup (map url (relays c)) ->
  In r (relays c) -> url r = normalizeRelayUrl raw -> enabled r = true ->
  normalizeRelayUrl raw <> [] ->
  2 <= length (enabledUrls c) ->
  enabledUrls (exec (upsertRelay raw false) c)
  = filter (fun u => negb (JsString.eqb u (normalizeRelayUrl raw)))
           (enabledUrls c)
  /\ length (enabledUrls (exec (upsertRelay raw false) c)) + 1
     = length (enabledUrls c).
Proof.
  intros ND Hr Ur Er Hn Hcount.
  set (n := normalizeRelayUrl raw) in *.
  assert (E : exec (upsertRelay raw false) c
              = with_relays c
                  (map (fun x => if url_is n x then with_enabled x false else x)
                       (relays c))).
  { rewrite upsertRelay_updater by exact Hn. unfold upsertUpdater.
    rewrite normalize_idem. fold n.
    destruct (find_url_in n (relays c) r Hr Ur) as [e F]. rewrite F.
    unfold enabledUrls in Hcount. rewrite length_map in Hcount.
    replace (length (filter enabled (relays c)) <=? 1) with false
      by (symmetry; apply Nat.leb_gt; lia).
    now rewrite andb_false_r. }
  rewrite E. unfold enabledUrls. cbn [relays with_relays].
  destruct (toggle_split n false (relays c) r ND Hr Ur) as (l1 & l2 & L & T).
  rewrite T, L. rewrite L in ND.
  rewrite map_app in ND. cbn [map] in ND.
  pose proof (NoDup_remove_2 _ _ _ ND) as Hout.
  assert (H1 : forall x, In x l1 -> url x <> n).
  { intros x Hx Ux. apply Hout. apply in_or_app. left.
    rewrite Ur, <- Ux. now apply in_map. }
  assert (H2 : forall x, In x l2 -> url x <> n).
  { intros x Hx Ux. apply Hout. apply in_or_app. right.
    rewrite Ur, <- Ux. now apply in_map. }
  rewrite !filter_app. cbn [filter with_enabled enabled]. rewrite Er.
  rewrite !map_app. cbn [map]. rewrite filter_app. cbn [filter].
  rewrite (proj2 (eqb_eq (url r) n) Ur). cbn [negb].
  rewrite !filter_enabled_absent_urls by assumption.
  split; [reflexivity|]. rewrite !length_app. cbn [length]. lia.
Qed.

Lemma upsertRelay_disable_removes_url_witness :
  enabledUrls (exec (upsertRelay (lit "relay.damus.io") false) Samples.two_on)
  = [ lit "wss://b.example" ].
Proof.
  apply (upsertRelay_disable_removes_url
           Samples.two_on (lit "relay.damus.io")
           (Fixtures.relay "wss://relay.damus.io" true)).
  - repeat constructor; simpl; intuition discriminate.
  - now left.
  - reflexivity.
  - reflexivity.
  - discriminate.
  - simpl. lia.
Defined.

Lemma upsertRelay_hasEnabled (c : AppConfig) (raw : jsstring) (en : bool) :
  NoDup (map url (relays c)) -> hasEnabled c = true ->
  hasEnabled (exec (upsertRelay raw en) c) = true.
Proof.
  intros ND HE. destruct (normalizeRelayUrl raw) as [|k t] eqn:N.
  - now rewrite upsertRelay_blank.
  - rewrite upsertRelay_updater by (rewrite N; discriminate).
    now apply upsertUpdater_keeps_enabled.
Qed.

Lemma upsertRelay_theme (c : AppConfig) (raw : jsstring) (en : bool) :
  theme (exec (upsertRelay raw en) c) = theme c.
Proof.
  destruct (upsertRelay_cases raw en c) as [E|[(e & _ & E)|(_ & _ & E)]];
    rewrite E; reflexivity.
Qed.

(** X6. Starting from distinct URLs and an enabled relay, any run of
    selector operations ends with distinct URLs, an enabled relay, the
    same theme, no fewer relays, and a pool whose active list is the
    enabled URLs and is not empty. *)
Theorem run_upserts_invariant (ops : list (jsstring * bool)) (c : AppConfig) :
  NoDup (map url (relays c)) -> hasEnabled c = true ->
  NoDup (map url (relays (run_upserts ops c)))
  /\ hasEnabled (run_upserts ops c) = true
  /\ theme (run_upserts ops c) = theme c
  /\ length (relays c) <= length (relays (run_upserts ops c))
  /\ relayUrls_effect (run_upserts ops c) = enabledUrls (run_upserts ops c)
  /\ relayUrls_effect (run_upserts ops c) <> [].
Proof.
  revert c. unfold run_upserts.
  induction ops as [|[raw en] ops IH]; intros c ND HE.
  - cbn [fold_left]. repeat split; auto.
    + rewrite <- (relayUrls_initial_effect c HE). reflexivity.
    + rewrite <- (relayUrls_initial_effect c HE).
      unfold relayUrls_initial, enabledUrls.
      apply existsb_enabled in HE. destruct HE as (r & Hr & Er).
      intros Z. apply map_eq_nil in Z.
      assert (In r (filter enabled (relays c))) by (apply filter_In; auto).
      rewrite Z in H. contradiction.
  - cbn [fold_left fst snd].
    destruct (IH (exec (upsertRelay raw en) c)) as (A & B & C & D & E).
    + destruct (upsertRelay_urls c raw en) as [X|[X Hout]]; rewrite X;
        [exact ND | now apply NoDup_snoc].
    + now apply upsertRelay_hasEnabled.
    + split; [exact A|]. split; [exact B|].
      split; [now rewrite C, upsertRelay_theme|]. split; [|exact E].
      eapply Nat.le_trans; [|exact D].
      destruct (upsertRelay_cases raw en c) as [X|[(e & _ & X)|(_ & _ & X)]];
        rewrite X; cbn [relays with_relays].
      * lia.
      * rewrite length_map. lia.
      * rewrite length_app. lia.
Qed.

Lemma run_upserts_invariant_witness :
  hasEnabled (run_upserts [ (lit "wss://relay.damus.io", false);
                            (lit "wss://b.example", false);
                            (lit "x.example", false) ] Samples.two_on) = true.
Proof.
  apply (run_upserts_invariant
           [ (lit "wss://relay.damus.io", false);
             (lit "wss://b.example", false);
             (lit "x.example", false) ] Samples.two_on).
  - repeat constructor; simpl; intuition discriminate.
  - reflexivity.
Defined.

End UpsertSequences.

(* ================================================================== *)
(** ** Insertion-ordered maps *)

Section MapFacts.

Variable V : Type.

Lemma set_keys_in (k : jsstring) (v : V) m x :
  In x (JsMap.keys (JsMap.set k v m)) <-> x = k \/ In x (JsMap.keys m).
Proof.
  induction m as [|[k' v'] m IH]; simpl.
  - intuition.
  - destruct (JsString.eqb k' k) eqn:E; simpl.
    + apply eqb_eq in E. subst. intuition.
    + rewrite IH. intuition.
Qed.

Lemma set_keys_nodup (k : jsstring) (v : V) m :
  NoDup (JsMap.keys m) -> NoDup (JsMap.keys (JsMap.set k v m)).
Proof.
  induction m as [|[k' v'] m IH]; simpl; intros ND.
  - repeat constructor. intros [].
  - inversion ND as [|? ? Hk ND']; subst.
    destruct (JsString.eqb k' k) eqn:E; simpl.
    + now constructor.
    + constructor; [|now apply IH].
      intros Hin. apply set_keys_in in Hin. destruct Hin as [->|Hin]; auto.
      apply eqb_neq in E. congruence.
Qed.

Lemma set_inv (k : jsstring) (v : V) m e :
  In e (JsMap.set k v m) -> e = (k, v) \/ In e m.
Proof.
  induction m as [|[k' v'] m IH]; simpl.
  - intuition.
  - destruct (JsString.eqb k' k) eqn:E; simpl.
    + apply eqb_eq in E. subst. intuition.
    + intuition.
Qed.

Lemma fill_keys_in (entries : list (jsstring * V)) : forall acc x,
  In x (JsMap.keys (JsMap.fill acc entries))
  <-> In x (JsMap.keys acc) \/ In x (map fst entries).
Proof.
  induction entries as [|[k v] es IH]; intros acc x; simpl.
  - intuition.
  - unfold JsMap.fill in *. simpl. rewrite IH, set_keys_in. intuition.
Qed.

Lemma fill_keys_nodup (entries : list (jsstring * V)) : forall acc,
  NoDup (JsMap.keys acc) -> NoDup (JsMap.keys (JsMap.fill acc entries)).
Proof.
  induction entries as [|[k v] es IH]; intros acc ND; simpl; auto.
  apply IH. now apply set_keys_nodup.
Qed.

Lemma fill_all (P : jsstring * V -> Prop) (entries : list (jsstring * V)) :
  forall acc,
  (forall e, In e acc -> P e) -> (forall e, In e entries -> P e) ->
  forall e, In e (JsMap.fill acc entries) -> P e.
Proof.
  induction entries as [|[k v] es IH]; intros acc Ha He e; simpl; auto.
  apply IH.
  - intros e' H. apply set_inv in H. destruct H as [->|H]; auto.
    apply He. now left.
  - intros e' H. apply He. now right.
Qed.

Lemma values_keys (f : V -> jsstring) (m : list (jsstring * V)) :
  (forall e, In e m -> f (snd e) = fst e) ->
  map f (JsMap.values m) = JsMap.keys m.
Proof.
  intros H. unfold JsMap.values, JsMap.keys. rewrite map_map.
  apply map_ext_in. exact H.
Qed.

End MapFacts.

Lemma NoDup_map_filter {K O : Type} (key : O -> K) (keep : O -> bool) :
  forall options, NoDup (map key options) ->
                  NoDup (map key (filter keep options)).
Proof.
  intros options. induction options as [|o rest IH]; simpl; intros ND;
    [constructor|].
  inversion ND as [|? ? Ho ND']; subst.
  destruct (keep o); simpl; [|now apply IH].
  constructor; [|now apply IH].
  intros Hin. apply Ho. apply in_map_iff in Hin.
  destruct Hin as (x & Fx & Hx). apply filter_In in Hx.
  apply in_map_iff. exists x. tauto.
Qed.

(* ================================================================== *)
(** ** Further properties: what the selector shows *)

Section ViewFacts.

Variable is_url : jsstring -> bool.
Variable toLowerCase : jsstring -> jsstring.
Variable presetRelays : list RelayOption.

Lemma allOptions_keyed (c : AppConfig) :
  exists m,
    allOptions presetRelays c = JsMap.values m
    /\ NoDup (JsMap.keys m)
    /\ map (fun o => normalizeRelayUrl (option_url o)) (JsMap.values m)
       = JsMap.keys m
    /\ (forall u, In u (JsMap.keys m) <->
                  In u (map (fun p => normalizeRelayUrl (option_url p))
                            presetRelays)
                  \/ In u (map (fun r => normalizeRelayUrl (url r))
                               (relays c))).
Proof.
  unfold allOptions.
  set (es := map (fun p => (normalizeRelayUrl (option_url p), p)) presetRelays
             ++ map (fun r => (normalizeRelayUrl (url r),
                               {| option_url := url r; option_name := url r |}))
                    (relays c)).
  exists (JsMap.of_entries es). split; [reflexivity|].
  change (JsMap.of_entries es) with (JsMap.fill [] es).
  split; [apply fill_keys_nodup; constructor|]. split.
  - apply values_keys.
    apply (fill_all RelayOption
             (fun e => normalizeRelayUrl (option_url (snd e)) = fst e)).
    + intros e [].
    + intros e He. subst es. apply in_app_or in He.
      destruct He as [He|He]; apply in_map_iff in He;
        destruct He as (x & <- & _); reflexivity.
  - intros u. rewrite fill_keys_in. subst es.
    rewrite map_app, !map_map. cbn [fst JsMap.keys map].
    rewrite in_app_iff. cbn [In]. tauto.
Qed.

Lemma isAvailable_inv (c : AppConfig) (input : jsstring) (o : RelayOption) :
  isAvailable toLowerCase c input o = true ->
  normalizeRelayUrl (option_url o) <> []
  /\ forall r, In r (relays c) -> enabled r = true ->
               url r <> normalizeRelayUrl (option_url o).
Proof.
  unfold isAvailable.
  destruct (is_empty (normalizeRelayUrl (option_url o))) eqn:E; [discriminate|].
  destruct (existsb _ (enabledRelays c)) eqn:X; [discriminate|].
  intros _. split; [now apply is_empty_false|].
  intros r Hr Er Ur.
  assert (existsb (fun r0 => JsString.eqb (url r0)
                               (normalizeRelayUrl (option_url o)))
                  (enabledRelays c) = true); [|congruence].
  apply existsb_exists. exists r. split.
  - apply filter_In. auto.
  - now apply eqb_eq.
Qed.

Lemma isAvailable_no_input (c : AppConfig) (o : RelayOption) :
  normalizeRelayUrl (option_url o) <> [] ->
  (forall r, In r (relays c) -> enabled r = true ->
             url r <> normalizeRelayUrl (option_url o)) ->
  isAvailable toLowerCase c [] o = true.
Proof.
  intros Hn Hfree. unfold isAvailable.
  rewrite (proj2 (is_empty_false _) Hn).
  destruct (existsb _ (enabledRelays c)) eqn:X; [|reflexivity].
  apply existsb_exists in X. destruct X as (r & Hr & Ur).
  apply filter_In in Hr. apply eqb_eq in Ur.
  exfalso. now apply (Hfree r).
Qed.

Lemma availableItems_in (c : AppConfig) (input : jsstring) (i : CommandItem) :
  In (Some i) (availableItems toLowerCase presetRelays c input) <->
  exists o, In o (allOptions presetRelays c)
            /\ isAvailable toLowerCase c input o = true
            /\ i = {| item_value := normalizeRelayUrl (option_url o);
                      item_label := option_name o |}.
Proof.
  unfold availableItems. rewrite in_map_iff. split.
  - intros (o & E & Ho). apply filter_In in Ho. destruct Ho as [Ho Av].
    exists o. split; [exact Ho|]. split; [exact Av|].
    destruct (isAvailable_inv c input o Av) as [Hn _].
    rewrite (proj2 (is_empty_false _) Hn) in E. congruence.
  - intros (o & Ho & Av & ->). exists o. split.
    + destruct (isAvailable_inv c input o Av) as [Hn _].
      now rewrite (proj2 (is_empty_false _) Hn).
    + apply filter_In. auto.
Qed.

(** X7. The "Available" group renders no [null] child and no URL twice,
    whatever the presets, the configuration and the typed filter. *)
Theorem availableItems_distinct (c : AppConfig) (input : jsstring) :
  exists items,
    availableItems toLowerCase presetRelays c input = map Some items
    /\ NoDup (map item_value items).
Proof.
  exists (map (fun o => {| item_value := normalizeRelayUrl (option_url o);
                           item_label := option_name o |})
              (filter (isAvailable toLowerCase c input)
                      (allOptions presetRelays c))).
  split.
  - unfold availableItems. rewrite map_map. apply map_ext_in.
    intros o Ho. apply filter_In in Ho. destruct Ho as [_ Av].
    destruct (isAvailable_inv c input o Av) as [Hn _].
    now rewrite (proj2 (is_empty_false _) Hn).
  - rewrite map_map. cbn [item_value].
    apply NoDup_map_filter.
    destruct (allOptions_keyed c) as (m & -> & ND & K & _).
    now rewrite K.
Qed.

(** X8. With nothing typed, the "Available" group offers exactly the
    non-empty normal forms of the preset and configured URLs that are not
    the URL of an enabled relay; with a filter typed it offers some of
    those. *)
Theorem availableItems_values (c : AppConfig) (u : jsstring) :
  ((exists i, In (Some i) (availableItems toLowerCase presetRelays c [])
              /\ item_value i = u)
   <-> u <> []
       /\ ((exists p, In p presetRelays
                      /\ u = normalizeRelayUrl (option_url p))
           \/ (exists r, In r (relays c) /\ u = normalizeRelayUrl (url r)))
       /\ (forall r, In r (relays c) -> enabled r = true -> url r <> u))
  /\ (forall input i,
        In (Some i) (availableItems toLowerCase presetRelays c input) ->
        item_value i = u ->
        exists i', In (Some i') (availableItems toLowerCase presetRelays c [])
                   /\ item_value i' = u).
Proof.
  destruct (allOptions_keyed c) as (m & EM & ND & K & Kin).
  assert (Sub : forall input i,
             In (Some i) (availableItems toLowerCase presetRelays c input) ->
             item_value i = u ->
             exists o, In o (allOptions presetRelays c)
                       /\ normalizeRelayUrl (option_url o) = u
                       /\ u <> []
                       /\ (forall r, In r (relays c) -> enabled r = true ->
                                     url r <> u)).
  { intros input i Hi Hu. apply availableItems_in in Hi.
    destruct Hi as (o & Ho & Av & ->). cbn [item_value] in Hu.
    destruct (isAvailable_inv c input o Av) as [Hn Hfree].
    exists o. rewrite <- Hu. auto. }
  assert (Back : forall o, In o (allOptions presetRelays c) ->
             normalizeRelayUrl (option_url o) = u -> u <> [] ->
             (forall r, In r (relays c) -> enabled r = true -> url r <> u) ->
             exists i, In (Some i) (availableItems toLowerCase presetRelays c [])
                       /\ item_value i = u).
  { intros o Ho Uo Hn Hfree.
    exists {| item_value := normalizeRelayUrl (option_url o);
              item_label := option_name o |}.
    split; [|exact Uo]. apply availableItems_in. exists o.
    split; [exact Ho|]. split; [|reflexivity].
    apply isAvailable_no_input; rewrite Uo; assumption. }
  split; [split|].
  - intros (i & Hi & Hu). destruct (Sub [] i Hi Hu) as (o & Ho & Uo & Hn & Hfree).
    split; [exact Hn|]. split; [|exact Hfree].
    assert (Hk : In u (JsMap.keys m)).
    { rewrite <- K, <- EM, <- Uo.
      apply (in_map (fun o => normalizeRelayUrl (option_url o))). exact Ho. }
    apply Kin in Hk. destruct Hk as [Hk|Hk]; apply in_map_iff in Hk;
      destruct Hk as (x & Ux & Hx); [left|right]; exists x; auto.
  - intros (Hn & Hsrc & Hfree).
    assert (Hk : In u (JsMap.keys m)).
    { apply Kin. destruct Hsrc as [(p & Hp & ->)|(r & Hr & ->)]; [left|right].
      - apply (in_map (fun p => normalizeRelayUrl (option_url p))). exact Hp.
      - apply (in_map (fun r => normalizeRelayUrl (url r))). exact Hr. }
    rewrite <- K, <- EM in Hk. apply in_map_iff in Hk.
    destruct Hk as (o & Uo & Ho). now apply (Back o).
  - intros input i Hi Hu.
    destruct (Sub input i Hi Hu) as (o & Ho & Uo & Hn & Hfree).
    now apply (Back o).
Qed.

(** X9. Picking an item of the "Available" group enables its URL: the
    URL is then the URL of an enabled relay, and the group no longer
    offers it under any filter. *)
Theorem selectAvailable_moves_item
        (s : SelectorState) (input : jsstring) (i : CommandItem) :
  In (Some i) (availableItems toLowerCase presetRelays (config s) input) ->
  In (item_value i)
     (map url (enabledRelays (config (selectAvailable (item_value i) s))))
  /\ (forall input' i',
        In (Some i') (availableItems toLowerCase presetRelays
                        (config (selectAvailable (item_value i) s)) input') ->
        item_value i' <> item_value i).
Proof.
  intros Hi. apply availableItems_in in Hi. destruct Hi as (o & _ & Av & ->).
  cbn [item_value config selectAvailable].
  destruct (isAvailable_inv (config s) input o Av) as [Hn _].
  set (u := normalizeRelayUrl (option_url o)) in *.
  assert (Hu : normalizeRelayUrl u = u) by apply normalize_idem.
  assert (Hnn : normalizeRelayUrl u <> []) by now rewrite Hu.
  destruct (enable_lists_url (config s) u Hnn) as (e & He & Ue).
  pose proof (enable_all_on (config s) u Hnn e He Ue) as Ee.
  rewrite Hu in Ue.
  split.
  - apply in_map_iff. exists e. split; [exact Ue|].
    apply filter_In. split; [exact He | exact Ee].
  - intros input' i' Hi' Eq. apply availableItems_in in Hi'.
    destruct Hi' as (o' & _ & Av' & ->). cbn [item_value] in Eq.
    destruct (isAvailable_inv _ input' o' Av') as [_ Hfree].
    apply (Hfree e He Ee). congruence.
Qed.

End ViewFacts.

Lemma selectAvailable_moves_item_witness :
  In (lit "wss://nos.lol")
     (map url (enabledRelays
                 (config (selectAvailable (lit "wss://nos.lol")
                                          Samples.browsing)))).
Proof.
  apply (proj1 (selectAvailable_moves_item
                  Samples.lower_ascii Samples.presetRelays Samples.browsing []
                  {| item_value := lit "wss://nos.lol";
                     item_label := lit "wss://nos.lol" |}
                  ltac:(vm_compute; do 4 right; left; reflexivity))).
Defined.

Section CustomRelay.

Variable is_url : jsstring -> bool.

Lemma normalize_trim (x : jsstring) :
  normalizeRelayUrl (trim x) = normalizeRelayUrl x.
Proof. unfold normalizeRelayUrl. now rewrite trim_idem. Qed.

Lemma startsWith_app (p s : jsstring) : startsWith p (p ++ s) = true.
Proof.
  induction p as [|a p IH]; simpl; [reflexivity|].
  now rewrite N.eqb_refl, IH.
Qed.

(** X10. When a host name without a scheme is the one enabled relay,
    the button shows the name as it was typed, trimmed: the scheme that
    normalising put in front is taken off again. *)
Theorem getRelayLabel_shows_typed_host
        (c : AppConfig) (r : RelayConfigItem) (x : jsstring) :
  enabledRelays c = [r] ->
  url r = normalizeRelayUrl x ->
  trim x <> [] -> includes (lit "://") (trim x) = false ->
  getRelayLabel c = trim x.
Proof.
  intros Hone Ur Hne Hinc. unfold getRelayLabel. rewrite Hone, Ur.
  unfold normalizeRelayUrl. apply is_empty_false in Hne.
  change scheme_sep with (lit "://"). rewrite Hne, Hinc.
  unfold stripScheme. change (lit "wss://") with wss.
  rewrite startsWith_app. reflexivity.
Qed.

Lemma getRelayLabel_shows_typed_host_witness :
  getRelayLabel (exec (upsertRelay (lit " my.relay.org ") true)
                      Fixtures.none_on)
  = lit "my.relay.org".
Proof.
  apply (getRelayLabel_shows_typed_host
           (exec (upsertRelay (lit " my.relay.org ") true) Fixtures.none_on)
           (Fixtures.relay "wss://my.relay.org" true) (lit " my.relay.org "));
    [reflexivity | reflexivity | discriminate | reflexivity].
Defined.

(** X11. An input passes the validity check exactly when it is not
    blank and the URL that would be added, its normal form, is one
    [new URL] accepts. *)
Theorem isValidRelayInput_iff (value : jsstring) :
  isValidRelayInput is_url value = true
  <-> trim value <> [] /\ is_url (normalizeRelayUrl value) = true.
Proof.
  unfold isValidRelayInput. rewrite normalize_trim.
  destruct (trim value) as [|k t] eqn:T; cbn [is_empty].
  - split; [discriminate | intros [H _]; congruence].
  - split; [intros H; split; [discriminate | exact H] | tauto].
Qed.

(** X12. Taking the "Add custom relay" row when it is offered closes
    the popover, clears the typed text, and leaves an enabled relay whose
    URL is the normal form of what was typed, a URL [new URL] accepts. *)
Theorem handleAddCustomRelay_adds (s : SelectorState) :
  offersCustomRelay is_url (inputValue s) = true ->
  open (handleAddCustomRelay (inputValue s) s) = false
  /\ inputValue (handleAddCustomRelay (inputValue s) s) = []
  /\ theme (config (handleAddCustomRelay (inputValue s) s)) = theme (config s)
  /\ exists e,
       In e (relays (config (handleAddCustomRelay (inputValue s) s)))
       /\ url e = normalizeRelayUrl (inputValue s)
       /\ enabled e = true
       /\ is_url (url e) = true.
Proof.
  unfold offersCustomRelay, isValidRelayInput.
  rewrite andb_true_iff, normalize_trim.
  intros [_ Hv].
  assert (Hne : trim (inputValue s) <> []).
  { intros Z. rewrite Z in Hv. discriminate. }
  assert (Hurl : is_url (normalizeRelayUrl (inputValue s)) = true).
  { apply is_empty_false in Hne. now rewrite Hne in Hv. }
  split; [reflexivity|]. split; [reflexivity|].
  cbn [config handleAddCustomRelay]. split; [apply upsertRelay_theme|].
  assert (Hn : normalizeRelayUrl (inputValue s) <> []).
  { intros Z. apply normalize_nil_iff in Z. contradiction. }
  destruct (enable_lists_url (config s) (inputValue s) Hn) as (e & He & Ue).
  exists e. rewrite Ue. split; [exact He|]. split; [reflexivity|].
  split; [|exact Hurl].
  now apply (enable_all_on (config s) (inputValue s) Hn).
Qed.

End CustomRelay.

Lemma handleAddCustomRelay_adds_witness :
  exists e,
    In e (relays (config (handleAddCustomRelay (lit " my.relay.org")
                                               Samples.typing)))
    /\ url e = lit "wss://my.relay.org"
    /\ enabled e = true.
Proof.
  destruct (handleAddCustomRelay_adds Fixtures.url_fixture Samples.typing
                                      eq_refl)
    as (_ & _ & _ & e & He & Ue & Ee & _).
  exists e. split; [exact He|]. split; [exact Ue | exact Ee].
Defined.

(* ================================================================== *)
(** ** Further properties: labels of the "Available" group *)

Section OptionLabels.

Variable toLowerCase : jsstring -> jsstring.
Variable presetRelays : list RelayOption.

Lemma set_inv_strong {V} (k : jsstring) (v : V) m e :
  NoDup (JsMap.keys m) ->
  In e (JsMap.set k v m) -> e = (k, v) \/ (In e m /\ fst e <> k).
Proof.
  induction m as [|[k' v'] m IH]; simpl; intros ND.
  - intuition.
  - inversion ND as [|? ? Hk ND']; subst.
    destruct (JsString.eqb k' k) eqn:E; simpl.
    + apply eqb_eq in E. subst k'. intros [<-|H]; [now left|].
      right. split; [now right|]. intros Z. apply Hk. rewrite <- Z.
      now apply in_map.
    + apply eqb_neq in E. intros [<-|H]; [right; split; [now left | exact E]|].
      destruct (IH ND' H) as [->|[H1 H2]]; [now left|]. right. auto.
Qed.

Lemma fill_untouched {V} (entries : list (jsstring * V)) : forall acc e,
  In e (JsMap.fill acc entries) -> ~ In (fst e) (map fst entries) -> In e acc.
Proof.
  induction entries as [|[k v] es IH]; intros acc e; simpl; auto.
  intros H Hout. apply IH in H; [|tauto].
  apply set_inv in H. destruct H as [->|H]; [|exact H].
  exfalso. apply Hout. now left.
Qed.

(** A key set again takes the value of its last entry. *)
Lemma fill_overrides {V} (entries : list (jsstring * V)) : forall acc e,
  NoDup (JsMap.keys acc) ->
  In e (JsMap.fill acc entries) -> In (fst e) (map fst entries) ->
  In e entries.
Proof.
  induction entries as [|[k v] es IH]; intros acc e ND; simpl; [tauto|].
  intros H Hk.
  destruct (in_dec (list_eq_dec N.eq_dec) (fst e) (map fst es)) as [Hin|Hout].
  - right. apply (IH (JsMap.set k v acc)); auto. now apply set_keys_nodup.
  - apply fill_untouched in H; [|exact Hout].
    apply set_inv_strong in H; [|exact ND].
    destruct H as [->|[_ Hne]]; [now left|].
    destruct Hk as [Hk|Hk]; [congruence | contradiction].
Qed.

(** X13. An "Available" item whose URL is the normal form of a
    configured relay's URL is labelled with that relay's URL, also when
    a preset of the same URL carries a name; only a URL that no
    configured relay has is labelled with the name of a preset. *)
Theorem availableItems_label
        (c : AppConfig) (input : jsstring) (i : CommandItem) :
  In (Some i) (availableItems toLowerCase presetRelays c input) ->
  ((exists r, In r (relays c) /\ normalizeRelayUrl (url r) = item_value i) ->
   exists r, In r (relays c) /\ normalizeRelayUrl (url r) = item_value i
             /\ item_label i = url r)
  /\ ((forall r, In r (relays c) -> normalizeRelayUrl (url r) <> item_value i) ->
      exists p, In p presetRelays
                /\ normalizeRelayUrl (option_url p) = item_value i
                /\ item_label i = option_name p).
Proof.
  intros Hi. apply availableItems_in in Hi. destruct Hi as (o & Ho & _ & ->).
  cbn [item_value item_label].
  unfold allOptions, JsMap.values in Ho. apply in_map_iff in Ho.
  destruct Ho as ([k o'] & Eo & Hm). cbn [snd] in Eo. subst o'.
  set (E1 := map (fun p => (normalizeRelayUrl (option_url p), p)) presetRelays)
    in *.
  set (E2 := map (fun r => (normalizeRelayUrl (url r),
                            {| option_url := url r; option_name := url r |}))
                 (relays c)) in *.
  change (JsMap.of_entries (E1 ++ E2)) with (JsMap.fill [] (E1 ++ E2)) in Hm.
  unfold JsMap.fill in Hm. rewrite fold_left_app in Hm.
  fold (JsMap.fill [] E1) in Hm. fold (JsMap.fill (JsMap.fill [] E1) E2) in Hm.
  assert (Hkey : normalizeRelayUrl (option_url o) = k).
  { apply (fill_all RelayOption
             (fun e => normalizeRelayUrl (option_url (snd e)) = fst e)
             E2 (JsMap.fill [] E1) ) in Hm; [exact Hm | |].
    - apply fill_all; [intros e [] |].
      intros e He. apply in_map_iff in He. now destruct He as (x & <- & _).
    - intros e He. apply in_map_iff in He. now destruct He as (x & <- & _). }
  assert (K2 : map fst E2 = map (fun r => normalizeRelayUrl (url r)) (relays c)).
  { subst E2. rewrite map_map. reflexivity. }
  rewrite Hkey. split.
  - intros (r & Hr & Ur).
    apply fill_overrides in Hm.
    + apply in_map_iff in Hm. destruct Hm as (r' & [= Uk <-] & Hr').
      exists r'. auto.
    + apply fill_keys_nodup. constructor.
    + cbn [fst]. rewrite K2, <- Ur.
      apply (in_map (fun r => normalizeRelayUrl (url r))). exact Hr.
  - intros Hnone.
    apply fill_untouched in Hm.
    + apply (fill_all RelayOption (fun e => In e E1) E1 []) in Hm;
        [| intros e [] | auto].
      apply in_map_iff in Hm. destruct Hm as (p & [= Uk <-] & Hp).
      exists p. auto.
    + cbn [fst]. rewrite K2. intros Hin. apply in_map_iff in Hin.
      destruct Hin as (r & Ur & Hr). now apply (Hnone r).
Qed.

End OptionLabels.

Lemma availableItems_label_witness :
  exists r, In r (relays Samples.two_on)
            /\ normalizeRelayUrl (url r) = lit "wss://nos.lol"
            /\ lit "wss://nos.lol" = url r.
Proof.
  apply (proj1 (availableItems_label
                  Samples.lower_ascii Samples.presetRelays Samples.two_on []
                  {| item_value := lit "wss://nos.lol";
                     item_label := lit "wss://nos.lol" |}
                  ltac:(vm_compute; do 4 right; left; reflexivity))).
  exists (Fixtures.relay "wss://nos.lol" false).
  split; [simpl; tauto | reflexivity].
Defined.

(* ================================================================== *)
(** ** Further properties: theme applier *)

Section ThemeFacts.

Import ThemeApplier.

(** The class list with both mode markers taken out. *)
Lemma base_in (cl : classList) (x : jsstring) :
  In x (remove (lit "dark") (remove (lit "light") cl))
  <-> In x cl /\ x <> lit "light" /\ x <> lit "dark".
Proof.
  unfold remove. rewrite !filter_In, !negb_true_iff, !eqb_neq. tauto.
Qed.

Lemma remove_fixed (t : jsstring) (cl : classList) :
  ~ In t cl -> remove t cl = cl.
Proof.
  intros H. unfold remove. induction cl as [|x cl IH]; simpl; [reflexivity|].
  rewrite (proj2 (eqb_neq x t)) by (intros ->; apply H; now left).
  simpl. f_equal. apply IH. intros Hin. apply H. now right.
Qed.

Lemma add_fresh (t : jsstring) (cl : classList) :
  ~ In t cl -> add t cl = cl ++ [t].
Proof.
  intros H. unfold add.
  destruct (existsb (fun x => JsString.eqb x t) cl) eqn:E; [|reflexivity].
  apply existsb_exists in E. destruct E as (x & Hx & Ex).
  apply eqb_eq in Ex. subst. contradiction.
Qed.

Lemma resolved_is_mode (p : bool) (t : Theme) :
  resolved p t = lit "light" \/ resolved p t = lit "dark".
Proof. destruct t, p; simpl; auto. Qed.

(** Applying a theme puts its marker after the other classes. *)
Lemma applyTheme_shape (p : bool) (t : Theme) (cl : classList) :
  applyTheme p t cl
  = remove (lit "dark") (remove (lit "light") cl) ++ [resolved p t].
Proof.
  assert (H : forall m, m = lit "light" \/ m = lit "dark" ->
                add m (remove (lit "dark") (remove (lit "light") cl))
                = remove (lit "dark") (remove (lit "light") cl) ++ [m]).
  { intros m Hm. apply add_fresh. rewrite base_in. intuition. }
  unfold applyTheme. destruct t; cbn [resolved]; apply H;
    try (destruct p; simpl; auto); simpl; auto.
Qed.

Lemma base_of_applied (p : bool) (t : Theme) (cl : classList) :
  remove (lit "dark") (remove (lit "light") (applyTheme p t cl))
  = remove (lit "dark") (remove (lit "light") cl).
Proof.
  rewrite applyTheme_shape. unfold remove at 2. rewrite filter_app.
  unfold remove at 1. rewrite filter_app.
  fold (remove (lit "light") (remove (lit "dark") (remove (lit "light") cl))).
  fold (remove (lit "dark")
          (remove (lit "light") (remove (lit "dark") (remove (lit "light") cl)))).
  rewrite (remove_fixed (lit "light")) by (rewrite base_in; tauto).
  rewrite (remove_fixed (lit "dark")) by (rewrite base_in; tauto).
  destruct (resolved_is_mode p t) as [-> | ->]; simpl; apply app_nil_r.
Qed.

(** X14. After a theme is applied the class list holds the marker of
    the resolved mode and not the other one; every other class is
    there exactly when it was there before, and no class is there
    twice if none was. *)
Theorem applyTheme_classes (p : bool) (t : Theme) (cl : classList) :
  (forall x, In x (applyTheme p t cl)
             <-> x = resolved p t
                 \/ (In x cl /\ x <> lit "light" /\ x <> lit "dark"))
  /\ (resolved p t = lit "dark" \/ resolved p t = lit "light")
  /\ (NoDup cl -> NoDup (applyTheme p t cl)).
Proof.
  split; [|split].
  - intros x. rewrite applyTheme_shape, in_app_iff, base_in. simpl.
    intuition.
  - destruct (resolved_is_mode p t); auto.
  - intros ND. rewrite applyTheme_shape. apply NoDup_app.
    + unfold remove. now do 2 apply NoDup_filter.
    + repeat constructor. intros [].
    + intros x Hx [<-|[]]. apply base_in in Hx.
      destruct (resolved_is_mode p t) as [E|E]; rewrite E in Hx; tauto.
Qed.

Lemma applyTheme_classes_witness :
  NoDup (applyTheme true system [lit "light"; lit "app"]).
Proof.
  apply (proj2 (proj2 (applyTheme_classes true system
                         [lit "light"; lit "app"]))).
  repeat constructor; simpl; intuition discriminate.
Defined.

(** X15. What an earlier application left behind does not show: a
    theme applied after any other gives what applying it alone gives;
    in particular applying a theme twice is applying it once. *)
Theorem applyTheme_overrides
        (p p' : bool) (t t' : Theme) (cl : classList) :
  applyTheme p t (applyTheme p' t' cl) = applyTheme p t cl.
Proof.
  rewrite (applyTheme_shape p t (applyTheme p' t' cl)), base_of_applied.
  symmetry. apply applyTheme_shape.
Qed.

Lemma last_cons_default {A} (a d : A) (l : list A) :
  last (a :: l) d = last l a.
Proof.
  revert a d. induction l as [|b l IH]; intros a d; [reflexivity|].
  change (last (a :: b :: l) d) with (last (b :: l) d).
  rewrite IH. symmetry. apply IH.
Qed.

(** X16. After a theme is applied and the host preference changes any
    number of times, the class list is what applying the theme under
    the latest preference gives; for [dark] and [light] the changes
    are not listened to and the preference plays no part. *)
Theorem mediaChanged_follows_latest
        (t : Theme) (p : bool) (changes : list bool) (cl : classList) :
  fold_left (fun cl m => mediaChanged t m cl) changes (applyTheme p t cl)
  = applyTheme (last changes p) t cl.
Proof.
  revert p. induction changes as [|m ms IH]; intros p; [reflexivity|].
  rewrite last_cons_default. cbn [fold_left].
  destruct t.
  - cbn [mediaChanged].
    change (applyTheme p dark cl) with (applyTheme m dark cl). apply IH.
  - cbn [mediaChanged].
    change (applyTheme p light cl) with (applyTheme m light cl). apply IH.
  - cbn [mediaChanged].
    change (handleChange m (applyTheme p system cl))
      with (applyTheme m system (applyTheme p system cl)).
    rewrite (applyTheme_shape m system (applyTheme p system cl)).
    rewrite base_of_applied, <- applyTheme_shape. apply IH.
Qed.

End ThemeFacts.

(* ================================================================== *)
(** ** Further properties: routers *)

Section RouterFacts.

Variable F : Type.
Variable E : Type.

(** X17. A request is routed to each active URL once, with the filters
    as given, and to no other URL: reads go where writes go. *)
Theorem reqRouter_targets
        (current : list jsstring) (filters : F) (event : E) :
  NoDup (JsMap.keys (Routers.reqRouter current filters))
  /\ (forall u, In u (JsMap.keys (Routers.reqRouter current filters))
                <-> In u (Routers.eventRouter current event))
  /\ (forall u f, In (u, f) (Routers.reqRouter current filters) ->
                  f = filters).
Proof.
  unfold Routers.reqRouter, Routers.eventRouter.
  change (JsMap.of_entries (map (fun u => (u, filters)) current))
    with (JsMap.fill [] (map (fun u => (u, filters)) current)).
  split; [apply fill_keys_nodup; constructor|]. split.
  - intros u. rewrite fill_keys_in, map_map. cbn [fst JsMap.keys map In].
    rewrite map_id. tauto.
  - intros u f H.
    apply (fill_all F (fun e => snd e = filters)
             (map (fun u => (u, filters)) current) []) in H;
      [exact H | intros e [] |].
    intros e He. apply in_map_iff in He. now destruct He as (x & <- & _).
Qed.

End RouterFacts.

(* ================================================================== *)
(** ** Further properties: what is stored and read back *)

Section StoredConfig.

Variable number : Type.
Variable is_url : jsstring -> bool.
Variable JSON_parse : jsstring -> completion (json number).

Lemma ThemeSchema_theme_name (t : Theme) :
  ThemeSchema (@JString number (theme_name t)) = Some t.
Proof. destruct t; reflexivity. Qed.

Lemma RelayConfigItemSchema_relay_json (r : RelayConfigItem) :
  RelayConfigItemSchema is_url (@Persisted.relay_json number r)
  = if is_url (url r) then Some r else None.
Proof.
  destruct r as [u b]. unfold Persisted.relay_json, RelayConfigItemSchema.
  cbn [url enabled]. unfold field. cbn [get].
  change (JsString.eqb (lit "url") (lit "url")) with true.
  change (JsString.eqb (lit "url") (lit "enabled")) with false.
  change (JsString.eqb (lit "enabled") (lit "enabled")) with true.
  cbn [UrlSchema BooleanSchema]. now destruct (is_url u).
Qed.

Lemma parse_all_relay_json (l : list RelayConfigItem) :
  (forall r, In r l -> is_url (url r) = true) ->
  parse_all (RelayConfigItemSchema is_url)
            (map (@Persisted.relay_json number) l) = Some l.
Proof.
  induction l as [|r l IH]; intros H; [reflexivity|].
  cbn [map parse_all]. rewrite RelayConfigItemSchema_relay_json.
  rewrite (H r) by now left. rewrite IH; [reflexivity|].
  intros x Hx. apply H. now right.
Qed.

Lemma parse_all_relay_json_bad (l : list RelayConfigItem) :
  (exists r, In r l /\ is_url (url r) = false) ->
  parse_all (RelayConfigItemSchema is_url)
            (map (@Persisted.relay_json number) l) = None.
Proof.
  induction l as [|x l IH]; intros (r & Hr & Ur); [contradiction|].
  cbn [map parse_all]. rewrite RelayConfigItemSchema_relay_json.
  destruct Hr as [->|Hr].
  - now rewrite Ur.
  - rewrite IH by (now exists r). now destruct (is_url (url x)).
Qed.

Lemma AppConfigSchema_to_json (c : AppConfig) :
  AppConfigSchema is_url (@Persisted.to_json number c)
  = match parse_all (RelayConfigItemSchema is_url)
                    (map (@Persisted.relay_json number) (relays c)) with
    | Some rs => if 1 <=? length rs
                 then Some {| theme := theme c; relays := rs |}
                 else None
    | None => None
    end.
Proof.
  unfold Persisted.to_json, AppConfigSchema, field. cbn [get].
  change (JsString.eqb (lit "theme") (lit "theme")) with true.
  change (JsString.eqb (lit "theme") (lit "relays")) with false.
  change (JsString.eqb (lit "relays") (lit "relays")) with true.
  cbv iota. rewrite ThemeSchema_theme_name. cbn [RelaysSchema].
  destruct (parse_all _ _) as [rs|]; [|reflexivity].
  now destruct (1 <=? length rs).
Qed.

Lemma LegacyAppConfigSchema_to_json (c : AppConfig) :
  LegacyAppConfigSchema is_url (@Persisted.to_json number c) = None.
Proof.
  unfold Persisted.to_json, LegacyAppConfigSchema, field. cbn [get].
  change (JsString.eqb (lit "theme") (lit "theme")) with true.
  change (JsString.eqb (lit "theme") (lit "relayUrl")) with false.
  change (JsString.eqb (lit "relays") (lit "relayUrl")) with false.
  cbv iota. now rewrite ThemeSchema_theme_name.
Qed.

(** X18. A stored configuration with a relay, an enabled relay and only
    URLs that [new URL] accepts is read back as it was written. *)
Theorem deserialize_to_json_roundtrip
        (d c : AppConfig) (value : jsstring) :
  JSON_parse value = Normal (Persisted.to_json c) ->
  hasEnabled c = true ->
  (forall r, In r (relays c) -> is_url (url r) = true) ->
  deserialize is_url JSON_parse d value = Normal c.
Proof.
  intros Hp He Hu. rewrite (deserialize_parsed _ _ _ d value _ Hp).
  unfold decode. rewrite AppConfigSchema_to_json, parse_all_relay_json by exact Hu.
  unfold hasEnabled in He.
  destruct (relays c) as [|r rs] eqn:R; [discriminate|].
  cbn [length Nat.leb relays]. rewrite He. f_equal.
  destruct c; cbn in *; congruence.
Qed.

(** X19. A stored configuration with no relay, or with one URL that
    [new URL] rejects, is dropped whole: the default is returned, theme
    included. *)
Theorem deserialize_to_json_rejected
        (d c : AppConfig) (value : jsstring) :
  JSON_parse value = Normal (Persisted.to_json c) ->
  (relays c = []
   \/ exists r, In r (relays c) /\ is_url (url r) = false) ->
  deserialize is_url JSON_parse d value = Normal d.
Proof.
  intros Hp Hbad. rewrite (deserialize_parsed _ _ _ d value _ Hp).
  unfold decode. rewrite AppConfigSchema_to_json, LegacyAppConfigSchema_to_json.
  destruct Hbad as [E|Hbad].
  - now rewrite E.
  - now rewrite parse_all_relay_json_bad.
Qed.

(** X20. A stored configuration in which no relay is enabled is read
    back with its first relay enabled and nothing else changed, when
    its URLs are ones [new URL] accepts. *)
Theorem deserialize_to_json_repairs
        (d c : AppConfig) (value : jsstring)
        (first : RelayConfigItem) (rest : list RelayConfigItem) :
  JSON_parse value = Normal (Persisted.to_json c) ->
  relays c = first :: rest ->
  hasEnabled c = false ->
  (forall r, In r (relays c) -> is_url (url r) = true) ->
  deserialize is_url JSON_parse d value
  = Normal {| theme := theme c;
              relays := {| url := url first; enabled := true |} :: rest |}.
Proof.
  intros Hp R He Hu. rewrite (deserialize_parsed _ _ _ d value _ Hp).
  unfold decode. rewrite AppConfigSchema_to_json, parse_all_relay_json by exact Hu.
  unfold hasEnabled in He. rewrite R in *.
  cbn [length Nat.leb relays theme]. rewrite He.
  unfold with_relays, mapi. cbn [mapi_from Nat.eqb theme relays].
  simpl in He. apply orb_false_iff in He.
  now rewrite (mapi_from_all_off rest 0 (proj2 He)).
Qed.

(** X21. An upsert of an input whose normal form [new URL] accepts
    keeps a configuration storable: if every URL was acceptable before,
    every URL is acceptable after. *)
Theorem upsertRelay_keeps_urls_valid
        (c : AppConfig) (raw : jsstring) (en : bool) :
  (forall r, In r (relays c) -> is_url (url r) = true) ->
  is_url (normalizeRelayUrl raw) = true ->
  forall r, In r (relays (exec (upsertRelay raw en) c)) ->
            is_url (url r) = true.
Proof.
  intros Hall Hn r.
  destruct (upsertRelay_cases raw en c) as [E|[(e & _ & E)|(_ & _ & E)]];
    rewrite E; cbn [relays with_relays].
  - apply Hall.
  - intros Hr. apply in_map_iff in Hr. destruct Hr as (x & <- & Hx).
    destruct (url_is (normalizeRelayUrl raw) x); cbn [url with_enabled];
      now apply Hall.
  - intros Hr. apply in_app_or in Hr. destruct Hr as [Hr|[<-|[]]].
    + now apply Hall.
    + exact Hn.
Qed.

Lemma decode_has_enabled (d : AppConfig) (parsed : json number) :
  wellFormed d ->
  exists r, In r (relays (decode is_url d parsed)) /\ enabled r = true.
Proof.
  intros Hd. unfold decode.
  destruct (AppConfigSchema is_url parsed) as [data|] eqn:Hnew.
  - pose proof (AppConfigSchema_nonempty _ _ _ _ Hnew) as Hne.
    destruct (existsb enabled (relays data)) eqn:He.
    + now apply existsb_enabled.
    + destruct (relays data) as [|first rest]; [congruence|].
      exists (with_enabled first true). split; [now left | reflexivity].
  - destruct (LegacyAppConfigSchema is_url parsed) as [[t u]|]; [|apply Hd].
    eexists. split; [now left | reflexivity].
Qed.

(** X22. Whatever is stored, the configuration that is loaded gives the
    pool a list of active URLs that is not empty, is the enabled URLs
    (the fallback is not taken), and is already the list the ref is
    created with; the default handed in must itself have an enabled
    relay. *)
Theorem deserialize_then_active
        (d : AppConfig) (value : jsstring) (current : list jsstring) :
  wellFormed d ->
  exists c,
    deserialize is_url JSON_parse d value = Normal c
    /\ step current (Effect c) = enabledUrls c
    /\ step current (Effect c) <> []
    /\ step current (FirstRender c) = step current (Effect c).
Proof.
  intros Hd.
  assert (Hload : exists c, deserialize is_url JSON_parse d value = Normal c
                            /\ exists r, In r (relays c) /\ enabled r = true).
  { destruct (JSON_parse value) as [parsed|] eqn:P.
    - rewrite (deserialize_parsed _ _ _ d value _ P).
      eexists. split; [reflexivity|]. now apply decode_has_enabled.
    - rewrite (deserialize_throw _ _ _ d value P). exists d. split; [reflexivity|].
      apply Hd. }
  destruct Hload as (c & Hc & r & Hr & Er).
  exists c. split; [exact Hc|].
  assert (HE : hasEnabled c = true).
  { apply existsb_enabled. now exists r. }
  cbn [step]. rewrite <- (relayUrls_initial_effect c HE).
  unfold relayUrls_initial. split; [reflexivity|]. split; [|reflexivity].
  unfold enabledUrls. intros Z. apply map_eq_nil in Z.
  assert (In r (filter enabled (relays c))) by (apply filter_In; auto).
  rewrite Z in H. contradiction.
Qed.

End StoredConfig.

Lemma deserialize_to_json_roundtrip_witness :
  deserialize Fixtures.url_fixture Samples.parse_saved
              Fixtures.defaultConfig Samples.two_on_text
  = Normal Samples.two_on.
Proof.
  apply deserialize_to_json_roundtrip; [reflexivity | reflexivity |].
  simpl. intros r [<-|[<-|[<-|[]]]]; reflexivity.
Defined.

Lemma deserialize_to_json_rejected_witness :
  deserialize Fixtures.url_fixture Samples.parse_saved
              Fixtures.defaultConfig Samples.not_a_url_text
  = Normal Fixtures.defaultConfig.
Proof.
  apply (deserialize_to_json_rejected
           Z Fixtures.url_fixture Samples.parse_saved
           Fixtures.defaultConfig Samples.not_a_url);
    [reflexivity|].
  right. exists (Fixtures.relay "not a url" true).
  split; [now left | reflexivity].
Defined.

Lemma deserialize_to_json_repairs_witness :
  deserialize Fixtures.url_fixture Samples.parse_saved
              Fixtures.defaultConfig Fixtures.all_off_text
  = Normal {| theme := system;
              relays := [ Fixtures.relay "wss://a.example" true;
                          Fixtures.relay "wss://b.example" false ] |}.
Proof.
  apply (deserialize_to_json_repairs
           Z Fixtures.url_fixture Samples.parse_saved Fixtures.defaultConfig
           {| theme := system;
              relays := [ Fixtures.relay "wss://a.example" false;
                          Fixtures.relay "wss://b.example" false ] |}
           Fixtures.all_off_text
           (Fixtures.relay "wss://a.example" false)
           [ Fixtures.relay "wss://b.example" false ]);
    [reflexivity | reflexivity | reflexivity |].
  simpl. intros r [<-|[<-|[]]]; reflexivity.
Defined.

Lemma upsertRelay_keeps_urls_valid_witness :
  Fixtures.url_fixture (url (Fixtures.relay "wss://c.example" true)) = true.
Proof.
  apply (upsertRelay_keeps_urls_valid
           Fixtures.url_fixture Fixtures.one_on (lit "c.example") false).
  - simpl. intros r [<-|[<-|[]]]; reflexivity.
  - reflexivity.
  - simpl. tauto.
Defined.

Lemma deserialize_then_active_witness :
  exists c,
    deserialize Fixtures.url_fixture Samples.parse_saved
                Fixtures.defaultConfig Samples.not_a_url_text = Normal c
    /\ step [] (Effect c) = enabledUrls c
    /\ step [] (Effect c) <> []
    /\ step [] (FirstRender c) = step [] (Effect c).
Proof.
  apply deserialize_then_active. split; [discriminate|].
  exists (Fixtures.relay "wss://nos.lol" true).
  split; [simpl; tauto | reflexivity].
Defined.

(* ================================================================== *)
(** ** Further properties: the two groups, and undoing a disable *)

Section Groups.

Variable toLowerCase : jsstring -> jsstring.
Variable presetRelays : list RelayOption.

(** X23. No URL is shown in both groups: an item of the "Available"
    group never has the URL of an item of the "Enabled" group, under
    any two filters. *)
Theorem groups_disjoint
        (c : AppConfig) (input input' : jsstring) (e a : CommandItem) :
  In e (enabledItems toLowerCase presetRelays c input) ->
  In (Some a) (availableItems toLowerCase presetRelays c input') ->
  item_value e <> item_value a.
Proof.
  intros He Ha. unfold enabledItems in He. apply in_map_iff in He.
  destruct He as (r & <- & Hr). cbn [item_value].
  apply filter_In in Hr. destruct Hr as [Hr _].
  apply filter_In in Hr. destruct Hr as [Hr Er].
  apply availableItems_in in Ha. destruct Ha as (o & _ & Av & ->).
  cbn [item_value].
  destruct (isAvailable_inv toLowerCase c input' o Av) as [_ Hfree].
  now apply Hfree.
Qed.

(** X24. With nothing typed the "Enabled" group lists the enabled
    URLs in order, which is the list the pool routes to whenever a
    relay is enabled. *)
Theorem enabledItems_are_active (c : AppConfig) :
  map item_value (enabledItems toLowerCase presetRelays c []) = enabledUrls c
  /\ (hasEnabled c = true ->
      map item_value (enabledItems toLowerCase presetRelays c [])
      = relayUrls_effect c).
Proof.
  assert (H : map item_value (enabledItems toLowerCase presetRelays c [])
              = enabledUrls c).
  { unfold enabledItems, enabledUrls, enabledRelays, matchesInput.
    cbn [is_empty orb]. rewrite map_map. cbn [item_value].
    f_equal. induction (filter enabled (relays c)) as [|x l IH];
      [reflexivity | simpl; now rewrite IH]. }
  split; [exact H|]. intros HE. rewrite H.
  now rewrite <- (relayUrls_initial_effect c HE).
Qed.

End Groups.

Lemma groups_disjoint_witness :
  lit "wss://b.example" <> lit "wss://nos.lol".
Proof.
  apply (groups_disjoint
           Samples.lower_ascii Samples.presetRelays Samples.two_on [] []
           {| item_value := lit "wss://b.example";
              item_label := lit "b.example" |}
           {| item_value := lit "wss://nos.lol";
              item_label := lit "wss://nos.lol" |}).
  - vm_compute. right. left. reflexivity.
  - vm_compute. do 4 right. left. reflexivity.
Defined.

Lemma enabledItems_are_active_witness :
  map item_value
      (enabledItems Samples.lower_ascii Samples.presetRelays Samples.two_on [])
  = relayUrls_effect Samples.two_on.
Proof.
  apply (proj2 (enabledItems_are_active
                  Samples.lower_ascii Samples.presetRelays Samples.two_on)).
  reflexivity.
Defined.

Lemma toggle_compose (n : jsstring) (b1 b2 : bool) (l : list RelayConfigItem) :
  map (fun r => if url_is n r then with_enabled r b2 else r)
      (map (fun r => if url_is n r then with_enabled r b1 else r) l)
  = map (fun r => if url_is n r then with_enabled r b2 else r) l.
Proof.
  rewrite map_map. apply map_ext. intros r.
  destruct (url_is n r) eqn:U; [|now rewrite U].
  unfold url_is in *. cbn [url with_enabled]. now rewrite U.
Qed.

Lemma toggle_on_enabled (n : jsstring) (l : list RelayConfigItem) :
  (forall r, In r l -> url r = n -> enabled r = true) ->
  map (fun r => if url_is n r then with_enabled r true else r) l = l.
Proof.
  induction l as [|x l IH]; simpl; intros H; [reflexivity|].
  rewrite IH by (intros r Hr; apply H; now right). f_equal.
  destruct (url_is n x) eqn:U; [|reflexivity].
  apply url_is_true in U. pose proof (H x (or_introl eq_refl) U) as Hb.
  destruct x as [u b]. cbn in *. now subst b.
Qed.

(** X25. With distinct URLs, disabling an enabled relay and enabling it
    again gives back the configuration, whether the disable went through
    or was turned down as the last enabled relay. *)
Theorem upsertRelay_disable_then_enable
        (c : AppConfig) (raw : jsstring) (r : RelayConfigItem) :
  NoDup (map url (relays c)) ->
  In r (relays c) -> url r = normalizeRelayUrl raw -> enabled r = true ->
  exec (upsertRelay raw true) (exec (upsertRelay raw false) c) = c.
Proof.
  intros ND Hr Ur Er.
  assert (On : forall x, In x (relays c) -> url x = normalizeRelayUrl raw ->
                         enabled x = true).
  { intros x Hx Ux. assert (x = r); [|congruence].
    apply (url_key (relays c)); auto. congruence. }
  assert (Back : with_relays c
                   (map (fun x => if url_is (normalizeRelayUrl raw) x
                                  then with_enabled x true else x) (relays c))
                 = c).
  { rewrite toggle_on_enabled by exact On. now destruct c. }
  destruct (normalizeRelayUrl raw) as [|k t] eqn:N.
  - now rewrite !upsertRelay_blank.
  - assert (Hn : normalizeRelayUrl raw <> []) by (rewrite N; discriminate).
    rewrite <- N in *.
    destruct (upsertRelay_cases raw false c) as [E|[(e & _ & E)|(_ & F & E)]].
    + rewrite E, upsertRelay_enable_present; [exact Back | exact Hn |].
      now exists r.
    + rewrite E, upsertRelay_enable_present; [| exact Hn |].
      * cbn [relays with_relays]. unfold with_relays at 1. cbn [theme].
        rewrite toggle_compose. exact Back.
      * exists (with_enabled r false). split; [|exact Ur].
        cbn [relays with_relays]. apply in_map_iff. exists r. split; auto.
        now rewrite (proj2 (url_is_true _ r) Ur).
    + rewrite find_url_none in F. exfalso. now apply (F r).
Qed.

Lemma upsertRelay_disable_then_enable_witness :
  exec (upsertRelay (lit "b.example") true)
       (exec (upsertRelay (lit "b.example") false) Samples.two_on)
  = Samples.two_on.
Proof.
  apply (upsertRelay_disable_then_enable
           Samples.two_on (lit "b.example")
           (Fixtures.relay "wss://b.example" true)).
  - repeat constructor; simpl; intuition discriminate.
  - simpl. tauto.
  - reflexivity.
  - reflexivity.
Defined.
